(** * ThreadsafeQueue: a mutex-guarded FIFO queue

    Shallow embedding of [src/ThreadsafeQueue.cpp] (class template
    [ThreadsafeQueue<T>], exception [empty_queue]).

    - Objects live in a store: queue objects and objects of type [T] are
      kept in two finite maps indexed by address, so that a reference
      parameter ([T& value], [const ThreadsafeQueue& other]) is an address
      and so that two queue objects are told apart by where they live.
    - [std::queue<T>] is a list with the front at the head.
    - [std::mutex] is a flag; a [std::lock_guard] acquires it when it is
      constructed and releases it when its scope is left, by [return] or by
      [throw].
    - A method is a computation in a state-and-exception monad over the
      store.  The same primitives drive a second, small-step reading of
      the methods in which several threads interleave statement by
      statement.

    Allocation failure ([std::bad_alloc]) is not modelled: copying a [T]
    and growing the container always succeed. *)

From stdpp Require Import gmap list strings.

Abbreviation loc := positive.

(** ** Exceptions and outcomes *)

(** [struct empty_queue : public std::exception] is the only exception
    type the class throws. *)
Inductive exception : Type :=
| empty_queue.

Definition what (e : exception) : string :=
  match e with
  | empty_queue => "queue empty exception"
  end.

(** How a call ends.  [Blocked]: the caller waits for a mutex that nobody
    will release.  [Undefined]: the C++ standard gives the call no meaning
    ([front()] or [pop()] on an empty [std::queue], use of an address that
    holds no object). *)
Inductive outcome (A : Type) : Type :=
| Returned (a : A)
| Threw (e : exception)
| Blocked
| Undefined.

Arguments Returned {A} a.
Arguments Threw {A} e.
Arguments Blocked {A}.
Arguments Undefined {A}.

(** [std::shared_ptr<T>]: null, or the address of the managed object. *)
Inductive shared_ptr : Type :=
| nullptr
| pointer (l : loc).

(** What a method hands back to its caller. *)
Inductive retval : Type :=
| VUnit
| VBool (b : bool)
| VPtr (p : shared_ptr).

Section Model.

Variable T : Type.

(** ** [std::queue<T>] *)

Definition q_empty (l : list T) : bool :=
  match l with
  | [] => true
  | _ :: _ => false
  end.

Definition q_front (l : list T) : option T :=
  match l with
  | [] => None
  | x :: _ => Some x
  end.

Definition q_pop (l : list T) : option (list T) :=
  match l with
  | [] => None
  | _ :: l' => Some l'
  end.

Definition q_push (x : T) (l : list T) : list T := l ++ [x].

(** ** The class and the store *)

(** The two data members: [mutable std::mutex m] ([true] while held) and
    [std::queue<T> theQueue]. *)
Record ThreadsafeQueue : Type := mkQueue {
  m : bool;
  theQueue : list T
}.

Record World : Type := mkWorld {
  queues : gmap loc ThreadsafeQueue;
  cells : gmap loc T
}.

Definition with_m (b : bool) (q : ThreadsafeQueue) : ThreadsafeQueue :=
  {| m := b; theQueue := theQueue q |}.

Definition with_theQueue (l : list T) (q : ThreadsafeQueue) : ThreadsafeQueue :=
  {| m := m q; theQueue := l |}.

Definition put_queue (a : loc) (q : ThreadsafeQueue) (w : World) : World :=
  {| queues := <[a := q]> (queues w); cells := cells w |}.

Definition put_cell (l : loc) (x : T) (w : World) : World :=
  {| queues := queues w; cells := <[l := x]> (cells w) |}.

(** ** The monad *)

Definition M (A : Type) : Type := World -> outcome A * World.

Definition ret {A : Type} (a : A) : M A :=
  fun w => (Returned a, w).

Definition throw {A : Type} (e : exception) : M A :=
  fun w => (Threw e, w).

Definition undefined {A : Type} : M A :=
  fun w => (Undefined, w).

Definition bind {A B : Type} (c : M A) (k : A -> M B) : M B :=
  fun w =>
    match c w with
    | (Returned a, w') => k a w'
    | (Threw e, w') => (Threw e, w')
    | (Blocked, w') => (Blocked, w')
    | (Undefined, w') => (Undefined, w')
    end.

(** Runs [c], then [cleanup] whether [c] returned or threw: the
    destructor of a local object. *)
Definition finally {A : Type} (c : M A) (cleanup : M unit) : M A :=
  fun w =>
    match c w with
    | (Returned a, w') => bind cleanup (fun _ => ret a) w'
    | (Threw e, w') => bind cleanup (fun _ => throw e) w'
    | (Blocked, w') => (Blocked, w')
    | (Undefined, w') => (Undefined, w')
    end.

(** A caller that catches what the call throws (the [try]/[catch] of the
    driver) and carries on. *)
Definition try_catch {A : Type} (c : M A) : M (outcome A) :=
  fun w =>
    match c w with
    | (Returned a, w') => (Returned (Returned a), w')
    | (Threw e, w') => (Returned (Threw e), w')
    | (Blocked, w') => (Blocked, w')
    | (Undefined, w') => (Undefined, w')
    end.

End Model.

Arguments mkQueue {T} _ _.
Arguments m {T} _.
Arguments theQueue {T} _.
Arguments mkWorld {T} _ _.
Arguments queues {T} _.
Arguments cells {T} _.
Arguments q_empty {T} _.
Arguments q_front {T} _.
Arguments q_pop {T} _.
Arguments q_push {T} _ _.
Arguments with_m {T} _ _.
Arguments with_theQueue {T} _ _.
Arguments put_queue {T} _ _ _.
Arguments put_cell {T} _ _ _.
Arguments ret {T A} _ _.
Arguments throw {T A} _ _.
Arguments undefined {T A} _.
Arguments bind {T A B} _ _ _.
Arguments finally {T A} _ _ _.
Arguments try_catch {T A} _ _.

Declare Scope queue_scope.
Delimit Scope queue_scope with queue.
Notation "x <- c ;; k" := (bind c (fun x => k))
  (at level 100, c at next level, right associativity) : queue_scope.
Notation "c ;; k" := (bind c (fun _ => k))
  (at level 100, right associativity) : queue_scope.
Open Scope queue_scope.

(** ** Primitive statements *)

Section Class.

Variable T : Type.

(** [m.lock()] on the queue object at [a]: waits while the mutex is
    held. *)
Definition mutex_lock (a : loc) : M T unit :=
  fun w =>
    match queues w !! a with
    | None => (Undefined, w)
    | Some q =>
        if m q then (Blocked, w)
        else (Returned tt, put_queue a (with_m true q) w)
    end.

(** [m.unlock()]; releasing a mutex that is not held has no meaning. *)
Definition mutex_unlock (a : loc) : M T unit :=
  fun w =>
    match queues w !! a with
    | None => (Undefined, w)
    | Some q =>
        if m q then (Returned tt, put_queue a (with_m false q) w)
        else (Undefined, w)
    end.

(** [std::lock_guard<std::mutex> lock(a.m);] followed by the rest of the
    enclosing block. *)
Definition lock_guard {A : Type} (a : loc) (body : M T A) : M T A :=
  mutex_lock a ;; finally body (mutex_unlock a).

(** [theQueue.empty()] *)
Definition theQueue_empty (a : loc) : M T bool :=
  fun w =>
    match queues w !! a with
    | None => (Undefined, w)
    | Some q => (Returned (q_empty (theQueue q)), w)
    end.

(** [theQueue.front()] *)
Definition theQueue_front (a : loc) : M T T :=
  fun w =>
    match queues w !! a with
    | None => (Undefined, w)
    | Some q =>
        match q_front (theQueue q) with
        | None => (Undefined, w)
        | Some x => (Returned x, w)
        end
    end.

(** [theQueue.pop()] *)
Definition theQueue_pop (a : loc) : M T unit :=
  fun w =>
    match queues w !! a with
    | None => (Undefined, w)
    | Some q =>
        match q_pop (theQueue q) with
        | None => (Undefined, w)
        | Some l => (Returned tt, put_queue a (with_theQueue l q) w)
        end
    end.

(** [theQueue.push(x)] *)
Definition theQueue_push (a : loc) (x : T) : M T unit :=
  fun w =>
    match queues w !! a with
    | None => (Undefined, w)
    | Some q =>
        (Returned tt, put_queue a (with_theQueue (q_push x (theQueue q)) q) w)
    end.

(** [theQueue = other.theQueue] inside the object at [this] *)
Definition theQueue_assign (this other : loc) : M T unit :=
  fun w =>
    match queues w !! other, queues w !! this with
    | Some qo, Some qt =>
        (Returned tt, put_queue this (with_theQueue (theQueue qo) qt) w)
    | _, _ => (Undefined, w)
    end.

(** [value = x] through the reference [value] *)
Definition assign (value : loc) (x : T) : M T unit :=
  fun w => (Returned tt, put_cell value x w).

(** Reading the object a reference names. *)
Definition read (value : loc) : M T T :=
  fun w =>
    match cells w !! value with
    | None => (Undefined, w)
    | Some x => (Returned x, w)
    end.

(** [std::make_shared<T>(x)]: a copy of [x] in storage that held no
    object before. *)
Definition make_shared (x : T) : M T shared_ptr :=
  fun w =>
    let l := fresh (dom (cells w)) in
    (Returned (pointer l), put_cell l x w).

(** [*p] *)
Definition deref (p : shared_ptr) : M T T :=
  match p with
  | nullptr => undefined
  | pointer l => read l
  end.

(** ** The member functions *)

(** [ThreadsafeQueue(){}]: both members are default-initialised, in
    storage that held no queue before; the result is the address of the
    new object. *)
Definition default_ctor : M T loc :=
  fun w =>
    let this := fresh (dom (queues w)) in
    (Returned this, put_queue this {| m := false; theQueue := [] |} w).

(** [ThreadsafeQueue(const ThreadsafeQueue& other)]: no member
    initialiser list, so the members are default-initialised first; the
    body then copies under [other]'s mutex. *)
Definition copy_ctor (other : loc) : M T loc :=
  this <- default_ctor ;;
  lock_guard other (theQueue_assign this other) ;;
  ret this.

(** [bool empty() const] *)
Definition empty (this : loc) : M T bool :=
  lock_guard this (theQueue_empty this).

(** [void pop(T& value)] *)
Definition pop_ref (this value : loc) : M T unit :=
  lock_guard this (
    e <- theQueue_empty this ;;
    if e then throw empty_queue
    else
      x <- theQueue_front this ;;
      assign value x ;;
      theQueue_pop this).

(** [std::shared_ptr<T> pop()] *)
Definition pop_ptr (this : loc) : M T shared_ptr :=
  lock_guard this (
    e <- theQueue_empty this ;;
    if e then throw empty_queue
    else
      x <- theQueue_front this ;;
      res <- make_shared x ;;
      theQueue_pop this ;;
      ret res).

(** [void push(T new_value)] *)
Definition push (this : loc) (new_value : T) : M T unit :=
  lock_guard this (theQueue_push this new_value).

(** ** Callers *)

(** The calls a client can make on an existing queue.  The class
    deletes [operator=], so there is no call that assigns one queue to
    another. *)
Inductive call : Type :=
| Empty
| PopRef (value : loc)
| PopPtr
| Push (new_value : T).

Definition exec (this : loc) (c : call) : M T retval :=
  match c with
  | Empty => b <- empty this ;; ret (VBool b)
  | PopRef value => pop_ref this value ;; ret VUnit
  | PopPtr => p <- pop_ptr this ;; ret (VPtr p)
  | Push new_value => push this new_value ;; ret VUnit
  end.

Fixpoint for_each {A B : Type} (f : A -> M T B) (l : list A) : M T (list B) :=
  match l with
  | [] => ret []
  | a :: l' => b <- f a ;; bs <- for_each f l' ;; ret (b :: bs)
  end.

(** A single-threaded client: the calls one after the other, each
    inside its own [try]/[catch]. *)
Definition exec_all (this : loc) (cs : list call) : M T (list (outcome retval)) :=
  for_each (fun c => try_catch (exec this c)) cs.

(** A remove through either overload, followed by a look at what it
    delivered. *)
Inductive remove_kind : Type :=
| IntoRef (value : loc)
| AsPtr.

Definition remove (this : loc) (k : remove_kind) : M T T :=
  match k with
  | IntoRef value => pop_ref this value ;; read value
  | AsPtr => p <- pop_ptr this ;; deref p
  end.

Definition is_remove (c : call) : bool :=
  match c with
  | PopRef _ | PopPtr => true
  | Empty | Push _ => false
  end.

Definition is_push (c : call) : bool :=
  match c with
  | Push _ => true
  | Empty | PopRef _ | PopPtr => false
  end.

Definition succeeded {A : Type} (r : outcome A) : bool :=
  match r with
  | Returned _ => true
  | Threw _ | Blocked | Undefined => false
  end.

(** Number of pushes among the calls, and number of removes among them
    that returned normally. *)
Definition count_pushes (cs : list call) : nat :=
  length (filter (fun c => is_push c = true) cs).

Fixpoint count_removed (cs : list call) (rs : list (outcome retval)) : nat :=
  match cs, rs with
  | c :: cs', r :: rs' =>
      (if is_remove c && succeeded r then 1 else 0) + count_removed cs' rs'
  | _, _ => 0
  end.

End Class.

Arguments mutex_lock {T} _ _.
Arguments mutex_unlock {T} _ _.
Arguments lock_guard {T A} _ _ _.
Arguments theQueue_empty {T} _ _.
Arguments theQueue_front {T} _ _.
Arguments theQueue_pop {T} _ _.
Arguments theQueue_push {T} _ _ _.
Arguments theQueue_assign {T} _ _ _.
Arguments assign {T} _ _ _.
Arguments read {T} _ _.
Arguments make_shared {T} _ _.
Arguments deref {T} _ _.
Arguments default_ctor {T} _.
Arguments copy_ctor {T} _ _.
Arguments empty {T} _ _.
Arguments pop_ref {T} _ _ _.
Arguments pop_ptr {T} _ _.
Arguments push {T} _ _ _.
Arguments Empty {T}.
Arguments PopRef {T} _.
Arguments PopPtr {T}.
Arguments Push {T} _.
Arguments exec {T} _ _ _.
Arguments for_each {T A B} _ _ _.
Arguments exec_all {T} _ _ _.
Arguments remove {T} _ _ _.
Arguments is_remove {T} _.
Arguments is_push {T} _.
Arguments succeeded {A} _.
Arguments count_pushes {T} _.
Arguments count_removed {T} _ _.

(** ** Threads

    Several threads share the queue object at [this].  Each thread works
    through its own list of calls; the scheduler picks which thread
    executes its next statement.  A thread that needs the mutex while
    another one holds it cannot be picked. *)

Section Threads.

Variable T : Type.
Variable this : loc.

(** Where a thread is inside the member function it called. *)
Inductive pc : Type :=
| Idle
    (* outside any call; its next step starts the next call by
       constructing the lock_guard *)
| AtBody (c : call T)
    (* mutex held, at the first statement after the lock_guard *)
| AtFront (c : call T)
    (* pop, queue found non-empty: at [value=theQueue.front()] or at
       [make_shared<T>(theQueue.front())] *)
| AtPop (c : call T) (res : shared_ptr)
    (* pop: at [theQueue.pop()] *)
| AtExit (c : call T) (r : outcome retval).
    (* leaving the block: the lock_guard is destroyed, then the call
       returns or throws [r] *)

Record thread : Type := mkThread {
  todo : list (call T);
  at_pc : pc
}.

(** A finished call: who made it, how it ended, and, for a remove that
    returned, the value the caller finds in the output object (behind
    [value], or behind the returned pointer) at the moment of return. *)
Record completion : Type := mkCompletion {
  who : nat;
  which : call T;
  how : outcome retval;
  got : option T
}.

(** [pushed] is a history variable: the values in the order in which
    [theQueue.push] ran.  [completed] lists the finished calls in the
    order in which they left their critical section. *)
Record config : Type := mkConfig {
  world : World T;
  threads : list thread;
  pushed : list T;
  completed : list completion
}.

Definition result_of (c : call T) (res : shared_ptr) : retval :=
  match c with
  | PopPtr => VPtr res
  | Empty | PopRef _ | Push _ => VUnit
  end.

(** What the caller of a returning remove finds. *)
Definition delivered (c : call T) (r : outcome retval) (w : World T) : option T :=
  match c, r with
  | PopRef value, Returned _ => cells w !! value
  | PopPtr, Returned (VPtr (pointer l)) => cells w !! l
  | _, _ => None
  end.

(** One statement of one thread.  [None]: the thread cannot move (it has
    no call left, it waits for the mutex, or the statement has no
    meaning). *)
Definition thread_step (t : thread) (w : World T) : option (thread * World T) :=
  match at_pc t with
  | Idle =>
      match todo t with
      | [] => None
      | c :: cs =>
          match mutex_lock this w with
          | (Returned _, w') => Some ({| todo := cs; at_pc := AtBody c |}, w')
          | _ => None
          end
      end
  | AtBody c =>
      match c with
      | Empty =>
          match theQueue_empty this w with
          | (Returned b, w') =>
              Some ({| todo := todo t; at_pc := AtExit c (Returned (VBool b)) |}, w')
          | _ => None
          end
      | Push new_value =>
          match theQueue_push this new_value w with
          | (Returned _, w') =>
              Some ({| todo := todo t; at_pc := AtExit c (Returned VUnit) |}, w')
          | _ => None
          end
      | PopRef _ | PopPtr =>
          match theQueue_empty this w with
          | (Returned true, w') =>
              Some ({| todo := todo t; at_pc := AtExit c (Threw empty_queue) |}, w')
          | (Returned false, w') =>
              Some ({| todo := todo t; at_pc := AtFront c |}, w')
          | _ => None
          end
      end
  | AtFront c =>
      match c with
      | PopRef value =>
          match (x <- theQueue_front this ;; assign value x) w with
          | (Returned _, w') =>
              Some ({| todo := todo t; at_pc := AtPop c nullptr |}, w')
          | _ => None
          end
      | PopPtr =>
          match (x <- theQueue_front this ;; make_shared x) w with
          | (Returned res, w') =>
              Some ({| todo := todo t; at_pc := AtPop c res |}, w')
          | _ => None
          end
      | Empty | Push _ => None
      end
  | AtPop c res =>
      match theQueue_pop this w with
      | (Returned _, w') =>
          Some ({| todo := todo t; at_pc := AtExit c (Returned (result_of c res)) |}, w')
      | _ => None
      end
  | AtExit c r =>
      match mutex_unlock this w with
      | (Returned _, w') => Some ({| todo := todo t; at_pc := Idle |}, w')
      | _ => None
      end
  end.

(** History kept alongside a step: the value a push statement appends,
    and the call a thread completes. *)
Definition step_pushed (t : thread) : list T :=
  match at_pc t with
  | AtBody (Push new_value) => [new_value]
  | _ => []
  end.

Definition step_completed (i : nat) (t : thread) (w : World T) : list completion :=
  match at_pc t with
  | AtExit c r =>
      [{| who := i; which := c; how := r; got := delivered c r w |}]
  | _ => []
  end.

(** The scheduler lets thread [i] run one statement. *)
Definition sched_step (i : nat) (cfg : config) : option config :=
  match threads cfg !! i with
  | None => None
  | Some t =>
      match thread_step t (world cfg) with
      | None => None
      | Some (t', w') =>
          Some {| world := w';
                  threads := <[i := t']> (threads cfg);
                  pushed := pushed cfg ++ step_pushed t;
                  completed := completed cfg ++ step_completed i t (world cfg) |}
      end
  end.

Fixpoint run_schedule (sched : list nat) (cfg : config) : option config :=
  match sched with
  | [] => Some cfg
  | i :: sched' =>
      match sched_step i cfg with
      | None => None
      | Some cfg' => run_schedule sched' cfg'
      end
  end.

(** Every thread about to start its first call. *)
Definition init (w : World T) (clients : list (list (call T))) : config :=
  {| world := w;
     threads := map (fun cs => {| todo := cs; at_pc := Idle |}) clients;
     pushed := [];
     completed := [] |}.

(** The values successful removes delivered, in order of completion. *)
Definition removed (cfg : config) : list T :=
  omap got (completed cfg).

Definition removes_done (cfg : config) : list completion :=
  filter (fun e => is_remove (which e) && succeeded (how e) = true) (completed cfg).

(** The element a thread has taken out of the sequence but not yet
    handed to its caller. *)
Definition pending (w : World T) (p : pc) : list T :=
  match p with
  | AtExit c r => option_list (delivered c r w)
  | Idle | AtBody _ | AtFront _ | AtPop _ _ => []
  end.

Definition in_flight (cfg : config) : list T :=
  concat (map (fun t => pending (world cfg) (at_pc t)) (threads cfg)).

Definition contents (cfg : config) : list T :=
  match queues (world cfg) !! this with
  | Some q => theQueue q
  | None => []
  end.

Definition inside (p : pc) : bool :=
  match p with
  | Idle => false
  | AtBody _ | AtFront _ | AtPop _ _ | AtExit _ _ => true
  end.

(** Threads currently between the lock and the unlock. *)
Definition holders (cfg : config) : list thread :=
  filter (fun t => inside (at_pc t) = true) (threads cfg).

(** *** The invariant of the interleaved executions *)

(** What holds of the thread inside the critical section, [xs] being
    the sequence: past the emptiness test the sequence is not empty;
    between the statement that copies the front element out and
    [theQueue.pop()] the copy equals the element still at the front;
    a remove about to return has its value in place. *)
Definition pc_ok (w : World T) (xs : list T) (p : pc) : Prop :=
  match p with
  | Idle => False
  | AtBody _ => True
  | AtFront c => is_remove c = true /\ xs <> []
  | AtPop c res =>
      is_remove c = true /\
      exists x xs',
        xs = x :: xs' /\
        delivered c (Returned (result_of c res)) w = Some x
  | AtExit c r =>
      if is_remove c && succeeded r then is_Some (delivered c r w)
      else delivered c r w = None
  end.

Definition completion_ok (e : completion) : Prop :=
  if is_remove (which e) && succeeded (how e) then is_Some (got e)
  else got e = None.

(** [q0] is the sequence the run started from. *)
Definition invariant (q0 : list T) (cfg : config) : Prop :=
  exists mtx xs,
    queues (world cfg) !! this = Some (mkQueue mtx xs) /\
    Forall completion_ok (completed cfg) /\
    if mtx then
      exists i t,
        threads cfg !! i = Some t /\
        (forall j t', threads cfg !! j = Some t' -> j <> i -> at_pc t' = Idle) /\
        pc_ok (world cfg) xs (at_pc t) /\
        q0 ++ pushed cfg = removed cfg ++ pending (world cfg) (at_pc t) ++ xs
    else
      (forall j t', threads cfg !! j = Some t' -> at_pc t' = Idle) /\
      q0 ++ pushed cfg = removed cfg ++ xs.

End Threads.

Arguments Idle {T}.
Arguments AtBody {T} _.
Arguments AtFront {T} _.
Arguments AtPop {T} _ _.
Arguments AtExit {T} _ _.
Arguments mkThread {T} _ _.
Arguments todo {T} _.
Arguments at_pc {T} _.
Arguments mkCompletion {T} _ _ _ _.
Arguments who {T} _.
Arguments which {T} _.
Arguments how {T} _.
Arguments got {T} _.
Arguments mkConfig {T} _ _ _ _.
Arguments world {T} _.
Arguments threads {T} _.
Arguments pushed {T} _.
Arguments completed {T} _.
Arguments result_of {T} _ _.
Arguments delivered {T} _ _ _.
Arguments thread_step {T} _ _ _.
Arguments step_pushed {T} _.
Arguments step_completed {T} _ _ _.
Arguments sched_step {T} _ _ _.
Arguments run_schedule {T} _ _ _.
Arguments init {T} _ _.
Arguments removed {T} _.
Arguments removes_done {T} _.
Arguments pending {T} _ _.
Arguments in_flight {T} _.
Arguments contents {T} _ _.
Arguments inside {T} _.
Arguments holders {T} _.
Arguments pc_ok {T} _ _ _.
Arguments completion_ok {T} _.
Arguments invariant {T} _ _ _.

(** ** Clients of the class

    Mixed runs of pushes and removes by one caller, what a set of threads
    still has to do, and the part of [main] in [driver.cpp] that empties
    the queue. *)

Section Clients.

Variable T : Type.

(** One step of a caller that pushes and removes in any order; a remove
    goes through either overload and is wrapped in [try]/[catch]. *)
Inductive op : Type :=
| DoPush (new_value : T)
| DoRemove (k : remove_kind).

(** The answers of the removes among the steps: the value delivered, or
    the exception caught. *)
Definition perform (this : loc) (o : op) : M T (list (outcome T)) :=
  match o with
  | DoPush new_value => push this new_value ;; ret []
  | DoRemove k => r <- try_catch (remove this k) ;; ret [r]
  end.

Definition perform_all (this : loc) (os : list op) : M T (list (outcome T)) :=
  rs <- for_each (perform this) os ;; ret (concat rs).

(** The reference the class is compared with: a first-in first-out queue
    on plain lists.  It gives the answers of the removes and the final
    sequence. *)
Fixpoint fifo_model (xs : list T) (os : list op) : list (outcome T) * list T :=
  match os with
  | [] => ([], xs)
  | DoPush new_value :: os' => fifo_model (xs ++ [new_value]) os'
  | DoRemove _ :: os' =>
      match xs with
      | [] =>
          let (rs, ys) := fifo_model [] os' in (Threw empty_queue :: rs, ys)
      | x :: xs' =>
          let (rs, ys) := fifo_model xs' os' in (Returned x :: rs, ys)
      end
  end.

(** *** Bookkeeping on threads *)

(** A thread that has returned from its last call. *)
Definition finished (t : thread T) : bool :=
  match todo t, at_pc t with
  | [], Idle => true
  | _, _ => false
  end.

(** What [join()] on every thread waits for. *)
Definition joined (cfg : config T) : bool :=
  forallb finished (threads cfg).

(** Statements a thread has yet to execute, counting five for a call not
    yet begun (a call takes three or five). *)
Definition steps_left (t : thread T) : nat :=
  5 * length (todo t) +
  match at_pc t with
  | Idle => 0
  | AtBody _ => 4
  | AtFront _ => 3
  | AtPop _ _ => 2
  | AtExit _ _ => 1
  end.

Definition total_steps_left (cfg : config T) : nat :=
  sum_list_with steps_left (threads cfg).

(** The calls of a thread that have not completed: the one it is inside
    of, then those to come. *)
Definition calls_left (t : thread T) : list (call T) :=
  match at_pc t with
  | Idle => []
  | AtBody c | AtFront c | AtPop c _ | AtExit c _ => [c]
  end ++ todo t.

Definition push_values (cs : list (call T)) : list T :=
  omap (fun c => match c with
                 | Push new_value => Some new_value
                 | Empty | PopRef _ | PopPtr => None
                 end) cs.

(** The values a thread has yet to append: those of its calls to [push]
    whose [theQueue.push] statement has not run. *)
Definition pushes_left (t : thread T) : list T :=
  push_values (match at_pc t with
               | AtBody c => [c]
               | Idle | AtFront _ | AtPop _ _ | AtExit _ _ => []
               end ++ todo t).

(** How many elements a list of calls takes out of the queue beyond those
    it has put in itself by then, at the worst moment. *)
Fixpoint need (cs : list (call T)) : nat :=
  match cs with
  | [] => 0
  | Push _ :: cs' => pred (need cs')
  | PopRef _ :: cs' | PopPtr :: cs' => S (need cs')
  | Empty :: cs' => need cs'
  end.

(** The same for a thread, the call it is inside of included as long as
    its statement on the sequence has not run. *)
Definition demand (t : thread T) : nat :=
  match at_pc t with
  | Idle => need (todo t)
  | AtBody c => need (c :: todo t)
  | AtFront _ | AtPop _ _ => S (need (todo t))
  | AtExit _ _ => need (todo t)
  end.

Definition total_demand (cfg : config T) : nat :=
  sum_list_with demand (threads cfg).

(** The sequence holds at least what the threads may yet take out of it
    beyond their own pushes; no call of a thread is about to throw and
    none has thrown. *)
Definition covered (this : loc) (cfg : config T) : Prop :=
  total_demand cfg <= length (contents this cfg) /\
  Forall (fun t => match at_pc t with
                   | AtExit _ r => succeeded r = true
                   | Idle | AtBody _ | AtFront _ | AtPop _ _ => True
                   end) (threads cfg) /\
  Forall (fun e => succeeded (how e) = true) (completed cfg).

(** The call a thread is inside of. *)
Definition current (p : pc T) : option (call T) :=
  match p with
  | Idle => None
  | AtBody c | AtFront c | AtPop c _ | AtExit c _ => Some c
  end.

(** Lets a thread that is inside a call run alone to the end of that
    call: the way the call ends and the store it leaves. *)
Fixpoint finish_call (fuel : nat) (this : loc) (t : thread T) (w : World T)
  : option (outcome retval * World T) :=
  match fuel with
  | 0 => None
  | S fuel' =>
      match at_pc t, thread_step this t w with
      | Idle, _ => None
      | AtExit _ r, Some (_, w') => Some (r, w')
      | (AtBody _ | AtFront _ | AtPop _ _), Some (t', w') =>
          finish_call fuel' this t' w'
      | _, None => None
      end
  end.

(** The calls completed so far, made one after the other by a single
    caller on the store [w0] the run started from, end the way they ended
    in the run and lead to a store [w] in which the mutex is free; the
    run's store is [w], unless a thread is inside a call, and then that
    thread, left alone, ends its call as the single caller would next. *)
Definition serial (this : loc) (w0 : World T) (cfg : config T) : Prop :=
  exists w ys,
    exec_all this (map which (completed cfg)) w0
      = (Returned (map how (completed cfg)), w) /\
    queues w !! this = Some (mkQueue false ys) /\
    ((forall i t, threads cfg !! i = Some t -> at_pc t = Idle) ->
     world cfg = w) /\
    (forall i t c,
       threads cfg !! i = Some t ->
       current (at_pc t) = Some c ->
       exists fuel,
         finish_call fuel this t (world cfg) = Some (exec this c w)).

(** The calls thread [i] has completed, in the order of completion. *)
Definition completed_by (i : nat) (cfg : config T) : list (call T) :=
  map which (filter (fun e => who e = i) (completed cfg)).

(** *** The loop of [main] that empties the queue

    [[
    try { while (true) { int readValue; myStack.pop(readValue);
                         std::cout << ... << readValue << std::endl; } }
    catch (empty_queue& e) { std::cout << "Exception caught" << std::endl;
                             std::cout << e.what() << std::endl; }
    ]]
    A line of output is either a value read (the thread id printed with it
    is left out) or a fixed text. *)
Inductive line : Type :=
| ReadValue (x : T)
| Text (s : string).

(** How the loop ends: the exception was caught, with the final store
    and everything printed; the fuel ran out; or a call neither returned
    nor threw. *)
Inductive ending : Type :=
| Done (w : World T) (out : list line)
| OutOfFuel
| Stuck.

Fixpoint drain (fuel : nat) (this readValue : loc) (w : World T) (out : list line)
  : ending :=
  match fuel with
  | 0 => OutOfFuel
  | S fuel' =>
      match (pop_ref this readValue ;; read readValue) w with
      | (Returned x, w') => drain fuel' this readValue w' (out ++ [ReadValue x])
      | (Threw e, w') => Done w' (out ++ [Text "Exception caught"; Text (what e)])
      | (Blocked, _) | (Undefined, _) => Stuck
      end
  end.

End Clients.

Arguments DoPush {T} _.
Arguments DoRemove {T} _.
Arguments perform {T} _ _ _.
Arguments perform_all {T} _ _ _.
Arguments fifo_model {T} _ _.
Arguments finished {T} _.
Arguments joined {T} _.
Arguments steps_left {T} _.
Arguments total_steps_left {T} _.
Arguments calls_left {T} _.
Arguments push_values {T} _.
Arguments pushes_left {T} _.
Arguments need {T} _.
Arguments demand {T} _.
Arguments total_demand {T} _.
Arguments completed_by {T} _ _.
Arguments covered {T} _ _.
Arguments current {T} _.
Arguments finish_call {T} _ _ _ _.
Arguments serial {T} _ _ _.
Arguments ReadValue {T} _.
Arguments Text {T} _.
Arguments Done {T} _ _.
Arguments OutOfFuel {T}.
Arguments Stuck {T}.
Arguments drain {T} _ _ _ _ _.

(** ** A concrete instance: queues of integers

    The driver instantiates the template at [int]; the runs below are
    used to exercise the statements that follow on actual data. *)

(** A store with one queue object, at address 1, whose mutex is free. *)
Definition one_queue (xs : list Z) : World Z :=
  {| queues := {[1%positive := mkQueue false xs]}; cells := ∅ |}.

(** Three of the driver's worker threads ([i] = 1, 2, 3): each pushes its
    number; those with [i % 3 != 0] then call [pop()]. *)
Definition workers : list (list (call Z)) :=
  [[Push 1%Z; PopPtr]; [Push 2%Z; PopPtr]; [Push 3%Z]].

(** Thread 0 pushes, thread 1 pushes and pops, thread 2 pushes, and thread
    0 is stopped inside its [pop()], between the copy of the front element
    and [theQueue.pop()]. *)
Definition interleaving : list nat :=
  [0; 0; 0; 1; 1; 1; 1; 1; 1; 1; 1; 2; 2; 2; 0; 0; 0].

Definition stopped : config Z :=
  match run_schedule 1%positive interleaving (init (one_queue []) workers) with
  | Some cfg => cfg
  | None => init (one_queue []) workers
  end.

(** ** The driver

    [main] of [driver.cpp]: one queue of [int]; ten threads, started with
    [i] = 1, ..., 10, each running the lambda [func]; [join] on all of
    them; then the loop that empties the queue.  The lambda pushes [i],
    computes on a local [float] (no access to the queue; left out), and
    calls [pop()] if [i%3 != 0].  What the threads print themselves is not
    modelled; what they received is in [completed]. *)

Definition worker (i : Z) : list (call Z) :=
  Push i :: (if decide (Z.rem i 3 = 0%Z) then [] else [PopPtr]).

Definition driver_threads : list (list (call Z)) :=
  map worker [1; 2; 3; 4; 5; 6; 7; 8; 9; 10]%Z.

(** [sched] is the order in which the operating system lets the threads
    run their statements; [readValue] is the address of the local variable
    of the loop.  [Stuck] also stands for a [sched] that is not a run of
    the program up to the return of the last [join]. *)
Definition main (sched : list nat) (fuel : nat) (readValue : loc) (w : World Z)
  : ending Z :=
  match default_ctor w with
  | (Returned myStack, w1) =>
      match run_schedule myStack sched (init w1 driver_threads) with
      | Some cfg =>
          if joined cfg then drain fuel myStack readValue (world cfg) []
          else Stuck
      | None => Stuck
      end
  | _ => Stuck
  end.

(** A run of the driver: every thread pushes, in the order 10, 9, ..., 1;
    then the threads that pop do so, in rising order. *)
Definition driver_run : list nat :=
  concat (map (replicate 3) [9; 8; 7; 6; 5; 4; 3; 2; 1; 0])
  ++ concat (map (replicate 5) [0; 1; 3; 4; 6; 7; 9]).

Definition empty_store : World Z := {| queues := ∅; cells := ∅ |}.

(** The state that run ends in, [main] having constructed its queue in
    the empty store. *)
Definition driver_joined : config Z :=
  match run_schedule 1%positive driver_run (init (one_queue []) driver_threads) with
  | Some cfg => cfg
  | None => init (one_queue []) driver_threads
  end.

(** * Properties *)

(** Runs a member function symbolically: [H] tells what the store holds at
    the queue's address; every later look-up hits the object just
    written. *)
Ltac run_with H :=
  rewrite H; cbn; repeat (rewrite lookup_insert_eq; cbn);
  unfold with_m, with_theQueue; cbn.

Section Sequential.

Variable T : Type.
Implicit Types (w : World T) (this other value : loc) (xs ys : list T).

Lemma world_eta w : mkWorld (queues w) (cells w) = w.
Proof. by destruct w. Qed.

Lemma put_queue_same a (q : ThreadsafeQueue T) w :
  queues w !! a = Some q -> put_queue a q w = w.
Proof.
  intros H. destruct w as [qs cs]. unfold put_queue. cbn in *.
  by rewrite insert_id.
Qed.

Lemma put_queue_twice a (q q' : ThreadsafeQueue T) w :
  put_queue a q (put_queue a q' w) = put_queue a q w.
Proof. unfold put_queue. cbn. by rewrite insert_insert_eq. Qed.

(** ** What each member function computes on a queue whose mutex is free *)

Lemma empty_unlocked w this xs :
  queues w !! this = Some (mkQueue false xs) ->
  empty this w = (Returned (q_empty xs), w).
Proof.
  intros H.
  unfold empty, lock_guard, finally, bind, mutex_lock, mutex_unlock,
    theQueue_empty, ret.
  run_with H.
  rewrite put_queue_twice. by rewrite (put_queue_same _ _ _ H).
Qed.

Lemma push_unlocked w this xs (new_value : T) :
  queues w !! this = Some (mkQueue false xs) ->
  push this new_value w =
    (Returned (), put_queue this (mkQueue false (xs ++ [new_value])) w).
Proof.
  intros H.
  unfold push, lock_guard, finally, bind, mutex_lock, mutex_unlock,
    theQueue_push, ret.
  run_with H. by rewrite !put_queue_twice.
Qed.

Lemma pop_ref_unlocked_nil w this value :
  queues w !! this = Some (mkQueue false []) ->
  pop_ref this value w = (Threw empty_queue, w).
Proof.
  intros H.
  unfold pop_ref, lock_guard, finally, bind, mutex_lock, mutex_unlock,
    theQueue_empty, throw.
  run_with H.
  rewrite put_queue_twice. by rewrite (put_queue_same _ _ _ H).
Qed.

Lemma pop_ref_unlocked_cons w this value (x : T) xs :
  queues w !! this = Some (mkQueue false (x :: xs)) ->
  pop_ref this value w =
    (Returned (), put_cell value x (put_queue this (mkQueue false xs) w)).
Proof.
  intros H.
  unfold pop_ref, lock_guard, finally, bind, mutex_lock, mutex_unlock,
    theQueue_empty, theQueue_front, theQueue_pop, assign, ret.
  run_with H. unfold put_cell, put_queue. cbn. by rewrite !insert_insert_eq.
Qed.

Lemma pop_ptr_unlocked_nil w this :
  queues w !! this = Some (mkQueue false []) ->
  pop_ptr this w = (Threw empty_queue, w).
Proof.
  intros H.
  unfold pop_ptr, lock_guard, finally, bind, mutex_lock, mutex_unlock,
    theQueue_empty, throw.
  run_with H.
  rewrite put_queue_twice. by rewrite (put_queue_same _ _ _ H).
Qed.

Lemma pop_ptr_unlocked_cons w this (x : T) xs :
  queues w !! this = Some (mkQueue false (x :: xs)) ->
  pop_ptr this w =
    (Returned (pointer (fresh (dom (cells w)))),
     put_cell (fresh (dom (cells w))) x (put_queue this (mkQueue false xs) w)).
Proof.
  intros H.
  unfold pop_ptr, lock_guard, finally, bind, mutex_lock, mutex_unlock,
    theQueue_empty, theQueue_front, theQueue_pop, make_shared, ret.
  run_with H. unfold put_cell, put_queue. cbn. by rewrite !insert_insert_eq.
Qed.

Lemma fresh_cell_free w : cells w !! fresh (dom (cells w)) = None.
Proof. apply not_elem_of_dom. apply is_fresh. Qed.

Lemma fresh_queue_free w : queues w !! fresh (dom (queues w)) = None.
Proof. apply not_elem_of_dom. apply is_fresh. Qed.

(** A default-constructed queue is a new object, empty, with its mutex
    free; the queues that existed are untouched. *)
Lemma default_ctor_empty w :
  exists this w',
    default_ctor w = (Returned this, w') /\
    queues w !! this = None /\
    queues w' !! this = Some (mkQueue false []) /\
    (forall b (q : ThreadsafeQueue T),
       queues w !! b = Some q -> queues w' !! b = Some q).
Proof.
  pose proof (fresh_queue_free w) as Hfresh.
  eexists _, _. split; [reflexivity|]. split; [done|].
  split; [cbn; by rewrite lookup_insert_eq|].
  intros b q Hb. cbn. rewrite lookup_insert_ne; [done|congruence].
Qed.

Lemma remove_unlocked_cons w this k (x : T) xs :
  queues w !! this = Some (mkQueue false (x :: xs)) ->
  exists w',
    remove this k w = (Returned x, w') /\
    queues w' !! this = Some (mkQueue false xs).
Proof.
  intros H. destruct k as [value|]; unfold remove, bind.
  - rewrite (pop_ref_unlocked_cons _ _ _ _ _ H).
    eexists. split.
    + unfold read. cbn. by rewrite lookup_insert_eq.
    + cbn. by rewrite lookup_insert_eq.
  - rewrite (pop_ptr_unlocked_cons _ _ _ _ H).
    eexists. split.
    + unfold deref, read. cbn. by rewrite lookup_insert_eq.
    + cbn. by rewrite lookup_insert_eq.
Qed.

Lemma pushes_unlocked this (ps : list T) :
  forall w xs,
    queues w !! this = Some (mkQueue false xs) ->
    for_each (push this) ps w =
      (Returned (map (fun _ => ()) ps),
       put_queue this (mkQueue false (xs ++ ps)) w).
Proof.
  induction ps as [|p ps IH]; intros w xs H; cbn.
  - unfold ret. by rewrite app_nil_r, (put_queue_same _ _ _ H).
  - unfold bind at 1. rewrite (push_unlocked _ _ _ _ H).
    unfold bind at 1.
    rewrite (IH _ (xs ++ [p])); [|cbn; by rewrite lookup_insert_eq].
    unfold ret. by rewrite put_queue_twice, <- app_assoc.
Qed.

Lemma removes_unlocked this (ks : list remove_kind) :
  forall w xs ys,
    queues w !! this = Some (mkQueue false (xs ++ ys)) ->
    length ks = length xs ->
    exists w',
      for_each (remove this) ks w = (Returned xs, w') /\
      queues w' !! this = Some (mkQueue false ys).
Proof.
  induction ks as [|k ks IH]; intros w xs ys H Hlen.
  - destruct xs; [|done]. exists w. by split.
  - destruct xs as [|x xs]; [done|]. cbn in H, Hlen.
    destruct (remove_unlocked_cons _ _ k _ _ H) as (w1 & Hrm & Hq1).
    destruct (IH w1 xs ys Hq1) as (w2 & Hrest & Hq2); [lia|].
    exists w2. split; [|done].
    cbn. unfold bind at 1. rewrite Hrm. unfold bind at 1. by rewrite Hrest.
Qed.

(** ** The claims about a single caller *)

(** C1 (FIFO order).  On a queue that is empty, pushing p1, ..., pn and
    then removing n times, each time through either overload of [pop],
    delivers exactly p1, ..., pn in that order; every one of the n
    removes returns normally, and the queue is empty again. *)
Theorem fifo_order w this (ps : list T) (ks : list remove_kind) :
  queues w !! this = Some (mkQueue false []) ->
  length ks = length ps ->
  exists w',
    (for_each (push this) ps ;; for_each (remove this) ks) w
      = (Returned ps, w') /\
    queues w' !! this = Some (mkQueue false []).
Proof.
  intros H Hlen. unfold bind.
  rewrite (pushes_unlocked _ _ _ _ H). cbn [app].
  apply removes_unlocked; [|done].
  cbn. by rewrite lookup_insert_eq, app_nil_r.
Qed.

(** C2 (empty error exactly on the empty queue).  Each overload of [pop]
    throws [empty_queue] if and only if the sequence has no element when
    the call runs, and a call that throws leaves the whole store, the
    queue included, as it found it. *)
Theorem remove_throws_iff_empty w this value xs :
  queues w !! this = Some (mkQueue false xs) ->
  (fst (pop_ref this value w) = Threw empty_queue <-> xs = []) /\
  (fst (pop_ptr this w) = Threw empty_queue <-> xs = []) /\
  (xs = [] -> snd (pop_ref this value w) = w /\ snd (pop_ptr this w) = w).
Proof.
  intros H. destruct xs as [|x xs].
  - rewrite (pop_ref_unlocked_nil _ _ value H), (pop_ptr_unlocked_nil _ _ H).
    by cbn.
  - rewrite (pop_ref_unlocked_cons _ _ value _ _ H),
      (pop_ptr_unlocked_cons _ _ _ _ H).
    cbn. repeat split; intros; done.
Qed.

(** C3 ([pop(T& value)] on a non-empty queue).  The call returns
    normally; afterwards the object behind [value] holds the element that
    was at the front, the sequence is the old one without its first
    element, the mutex is free again and nothing else in the store has
    changed. *)
Theorem pop_ref_success w this value (x : T) xs :
  queues w !! this = Some (mkQueue false (x :: xs)) ->
  pop_ref this value w =
    (Returned (),
     {| queues := <[this := mkQueue false xs]> (queues w);
        cells := <[value := x]> (cells w) |}).
Proof. intros H. by rewrite (pop_ref_unlocked_cons _ _ _ _ _ H). Qed.

(** C6 ([empty] is a pure test).  [empty] returns [true] exactly when
    the sequence has no element, leaves the store as it found it, and any
    number of calls in a row all return that same answer. *)
Theorem empty_pure_idempotent w this xs (n : nat) :
  queues w !! this = Some (mkQueue false xs) ->
  exists b : bool,
    (b = true <-> length xs = 0) /\
    empty this w = (Returned b, w) /\
    for_each (fun _ : unit => empty this) (replicate n ()) w
      = (Returned (replicate n b), w).
Proof.
  intros H. exists (q_empty xs). split; [|split].
  - destruct xs; cbn; split; intros; done.
  - by apply empty_unlocked.
  - induction n as [|n IH]; [done|].
    cbn. unfold bind at 1. rewrite (empty_unlocked _ _ _ H).
    unfold bind at 1. by rewrite IH.
Qed.

(** C7 ([push] appends and has no error outcome).  [push] returns
    normally with the pushed value added after all the elements that
    were there, which keep their order; and in no store whatsoever does
    [push] throw. *)
Theorem push_appends w this xs (new_value : T) :
  queues w !! this = Some (mkQueue false xs) ->
  push this new_value w =
    (Returned (),
     {| queues := <[this := mkQueue false (xs ++ [new_value])]> (queues w);
        cells := cells w |}) /\
  (forall w0 e, fst (push this new_value w0) <> Threw e).
Proof.
  intros H. split.
  - by rewrite (push_unlocked _ _ _ _ H).
  - intros w0 e.
    unfold push, lock_guard, finally, bind, mutex_lock, mutex_unlock,
      theQueue_push, ret.
    destruct (queues w0 !! this) as [[[] l]|] eqn:E; cbn; try done.
    repeat (rewrite lookup_insert_eq; cbn). done.
Qed.

(** C8 (a failed [pop(T& value)] does not write).  Whenever
    [pop(T& value)] throws [empty_queue], every object of type [T] in the
    store, the one behind [value] in particular, holds what it held
    before the call. *)
Theorem failed_pop_ref_keeps_value w this value :
  fst (pop_ref this value w) = Threw empty_queue ->
  cells (snd (pop_ref this value w)) !! value = cells w !! value /\
  cells (snd (pop_ref this value w)) = cells w.
Proof.
  unfold pop_ref, lock_guard, finally, bind, mutex_lock, mutex_unlock,
    theQueue_empty, theQueue_front, theQueue_pop, assign, throw, ret.
  destruct (queues w !! this) as [[[] [|x l]]|] eqn:E; cbn; try done;
    repeat (rewrite lookup_insert_eq; cbn); done.
Qed.

(** C9 ([pop()] on a non-empty queue).  The call returns a pointer that
    is not null; the object it points to lives at an address that held
    no object before the call and holds the element that was at the
    front; the sequence has lost exactly that element.  The copy is made
    first: the statement [make_shared<T>(theQueue.front())], run with
    the mutex held, fills the new object and leaves the sequence as it
    was, and only the next statement removes the front element. *)
Theorem pop_ptr_success w this (x : T) xs :
  queues w !! this = Some (mkQueue false (x :: xs)) ->
  exists l w',
    pop_ptr this w = (Returned (pointer l), w') /\
    pointer l <> nullptr /\
    cells w !! l = None /\
    cells w' !! l = Some x /\
    deref (pointer l) w' = (Returned x, w') /\
    queues w' !! this = Some (mkQueue false xs) /\
    (forall cs,
       let held := put_queue this (mkQueue true (x :: xs)) w in
       let copied := put_cell l x held in
       thread_step this (mkThread cs (AtFront PopPtr)) held
         = Some (mkThread cs (AtPop PopPtr (pointer l)), copied) /\
       queues copied !! this = Some (mkQueue true (x :: xs)) /\
       thread_step this (mkThread cs (AtPop PopPtr (pointer l))) copied
         = Some (mkThread cs (AtExit PopPtr (Returned (VPtr (pointer l)))),
                 put_queue this (mkQueue true xs) copied)).
Proof.
  intros H. eexists _, _. split; [by apply pop_ptr_unlocked_cons|].
  split; [done|]. split; [apply fresh_cell_free|].
  split; [cbn; by rewrite lookup_insert_eq|].
  split; [unfold deref, read; cbn; by rewrite lookup_insert_eq|].
  split; [cbn; by rewrite lookup_insert_eq|].
  intros cs held copied. subst held copied. split; [|split].
  - unfold thread_step, bind, theQueue_front, make_shared. cbn.
    by rewrite lookup_insert_eq.
  - cbn. by rewrite lookup_insert_eq.
  - unfold thread_step, theQueue_pop. cbn. by rewrite lookup_insert_eq.
Qed.

Lemma filter_is_push_cons (c : call T) cs :
  count_pushes (c :: cs) = (if is_push c then 1 else 0) + count_pushes cs.
Proof.
  unfold count_pushes. rewrite filter_cons.
  destruct (is_push c); by case_decide.
Qed.

Lemma exec_unlocked w this (c : call T) xs :
  queues w !! this = Some (mkQueue false xs) ->
  exists r w' ys,
    try_catch (exec this c) w = (Returned r, w') /\
    queues w' !! this = Some (mkQueue false ys) /\
    match c with
    | Push _ => succeeded r = true /\ length ys = S (length xs)
    | PopRef _ | PopPtr =>
        if succeeded r then S (length ys) = length xs
        else length xs = 0 /\ length ys = 0
    | Empty => succeeded r = true /\ length ys = length xs
    end.
Proof.
  intros H. unfold try_catch, exec, bind.
  destruct c as [|value| |v].
  - rewrite (empty_unlocked _ _ _ H). by eexists _, _, _.
  - destruct xs as [|x xs].
    + rewrite (pop_ref_unlocked_nil _ _ _ H). by eexists _, _, _.
    + rewrite (pop_ref_unlocked_cons _ _ _ _ _ H).
      eexists _, _, _. split; [done|]. split; [|done].
      cbn. by rewrite lookup_insert_eq.
  - destruct xs as [|x xs].
    + rewrite (pop_ptr_unlocked_nil _ _ H). by eexists _, _, _.
    + rewrite (pop_ptr_unlocked_cons _ _ _ _ H).
      eexists _, _, _. split; [done|]. split; [|done].
      cbn. by rewrite lookup_insert_eq.
  - rewrite (push_unlocked _ _ _ _ H).
    eexists _, _, _. split; [done|]. split.
    + cbn. by rewrite lookup_insert_eq.
    + split; [done|]. rewrite length_app. cbn. lia.
Qed.

(** C10 (element count).  On a queue whose mutex is free, [push] makes
    the sequence one longer, a remove that returns makes it one shorter,
    a remove that throws and [empty] leave its length alone; hence after
    any run of calls the length is the initial length plus the number of
    pushes minus the number of removes that returned.  Every call of the
    run ends (by returning or by throwing [empty_queue]). *)
Theorem length_delta w this xs :
  queues w !! this = Some (mkQueue false xs) ->
  (forall c : call T,
     exists r w' ys,
       try_catch (exec this c) w = (Returned r, w') /\
       queues w' !! this = Some (mkQueue false ys) /\
       match c with
       | Push _ => length ys = S (length xs)
       | PopRef _ | PopPtr =>
           if succeeded r then S (length ys) = length xs
           else length ys = length xs
       | Empty => length ys = length xs
       end) /\
  (forall cs : list (call T),
     exists rs w' ys,
       exec_all this cs w = (Returned rs, w') /\
       length rs = length cs /\
       queues w' !! this = Some (mkQueue false ys) /\
       length ys + count_removed cs rs = length xs + count_pushes cs).
Proof.
  intros H. split.
  - intros c. destruct (exec_unlocked _ _ c _ H) as (r & w' & ys & E & Hq & D).
    exists r, w', ys. split; [done|]. split; [done|].
    destruct c; try tauto; destruct (succeeded r); lia.
  - intros cs. revert w xs H.
    induction cs as [|c cs IH]; intros w xs H.
    + exists [], w, xs. cbn. repeat split; done.
    + destruct (exec_unlocked _ _ c _ H) as (r & w1 & ys1 & E & Hq1 & D).
      destruct (IH _ _ Hq1) as (rs & w2 & ys2 & Erest & Hlen & Hq2 & Hcount).
      exists (r :: rs), w2, ys2.
      split; [|split; [cbn; lia|split; [done|]]].
      * unfold exec_all in *. cbn. unfold bind at 1. rewrite E.
        unfold bind at 1. by rewrite Erest.
      * rewrite filter_is_push_cons. cbn [count_removed].
        destruct c; cbn [is_remove is_push andb] in *;
          destruct (succeeded r); lia.
Qed.

(** ** Copying a queue *)

Lemma copy_ctor_unlocked w other xs :
  queues w !! other = Some (mkQueue false xs) ->
  copy_ctor other w =
    (Returned (fresh (dom (queues w))),
     put_queue (fresh (dom (queues w))) (mkQueue false xs) w).
Proof.
  intros H.
  pose proof (fresh_queue_free w) as Hfresh.
  assert (fresh (dom (queues w)) <> other) as Hne
    by (intros E; rewrite E, H in Hfresh; done).
  set (this := fresh (dom (queues w))) in *.
  unfold copy_ctor, default_ctor, lock_guard, finally, bind, mutex_lock,
    mutex_unlock, theQueue_assign, ret.
  fold this. cbn.
  rewrite (lookup_insert_ne _ this other) by done. rewrite H. cbn.
  rewrite lookup_insert_eq.
  rewrite (lookup_insert_ne _ other this) by done.
  rewrite lookup_insert_eq. cbn.
  rewrite (lookup_insert_ne _ this other) by done.
  rewrite lookup_insert_eq. cbn.
  unfold put_queue, with_m, with_theQueue. cbn. f_equal. f_equal.
  apply map_eq. intros i.
  rewrite !lookup_insert. repeat case_decide; congruence.
Qed.

(** A call on the queue at [a] neither creates, destroys nor changes a
    queue object that lives elsewhere. *)
Lemma exec_frame a b (c : call T) w :
  a <> b -> queues (snd (exec a c w)) !! b = queues w !! b.
Proof.
  intros Hne.
  unfold exec, empty, pop_ref, pop_ptr, push, lock_guard, finally, bind,
    mutex_lock, mutex_unlock, theQueue_empty, theQueue_front, theQueue_pop,
    theQueue_push, assign, make_shared, throw, ret.
  destruct c as [|value| |v];
    destruct (queues w !! a) as [[[] [|x l]]|] eqn:E; cbn; try done;
    repeat (rewrite lookup_insert_eq; cbn);
    by rewrite ?lookup_insert_ne.
Qed.

Lemma exec_all_frame a b (cs : list (call T)) :
  a <> b -> forall w, queues (snd (exec_all a cs w)) !! b = queues w !! b.
Proof.
  intros Hne. unfold exec_all.
  induction cs as [|c cs IH]; intros w; [done|].
  cbn. unfold bind at 1, try_catch.
  pose proof (exec_frame a b c w Hne) as Hc.
  destruct (exec a c w) as [[r| | |] w1]; cbn in *; try done.
  - unfold bind at 1. specialize (IH w1).
    destruct (for_each _ cs w1) as [[rs| | |] w2]; cbn in *; congruence.
  - unfold bind at 1. specialize (IH w1).
    destruct (for_each _ cs w1) as [[rs| | |] w2]; cbn in *; congruence.
Qed.

(** [empty] never changes the sequence of the queue it is called on. *)
Lemma empty_keeps_theQueue a w (q q' : ThreadsafeQueue T) :
  queues w !! a = Some q ->
  queues (snd (exec a Empty w)) !! a = Some q' ->
  theQueue q' = theQueue q.
Proof.
  intros H.
  unfold exec, empty, lock_guard, finally, bind, mutex_lock, mutex_unlock,
    theQueue_empty, ret.
  destruct q as [[] l]; rewrite H; cbn.
  - rewrite H. by intros [= <-].
  - repeat (rewrite lookup_insert_eq; cbn). by intros [= <-].
Qed.

(** C5 (copy construction).  Copy-constructing from a queue whose mutex
    is free returns a new queue object, at an address where no queue
    lived, whose sequence has the contents and the order of the source;
    every queue that existed, the source included, is left exactly as it
    was.  Afterwards calls made on the copy never change the source and
    calls made on the source never change the copy.  There is no
    assignment between queues: a call that changes the sequence of an
    existing queue is a push or a remove made on that very queue. *)
Theorem copy_ctor_independent w other xs :
  queues w !! other = Some (mkQueue false xs) ->
  exists this w',
    copy_ctor other w = (Returned this, w') /\
    queues w !! this = None /\
    queues w' !! this = Some (mkQueue false xs) /\
    (forall b q, queues w !! b = Some q -> queues w' !! b = Some q) /\
    cells w' = cells w /\
    (forall cs w1,
       queues (snd (exec_all this cs w1)) !! other = queues w1 !! other /\
       queues (snd (exec_all other cs w1)) !! this = queues w1 !! this) /\
    (forall a c w1 b (q q' : ThreadsafeQueue T),
       queues w1 !! b = Some q ->
       queues (snd (exec a c w1)) !! b = Some q' ->
       theQueue q' <> theQueue q ->
       a = b /\ is_push c || is_remove c = true).
Proof.
  intros H.
  pose proof (fresh_queue_free w) as Hfresh.
  assert (fresh (dom (queues w)) <> other) as Hne
    by (intros E; rewrite E, H in Hfresh; done).
  eexists _, _. split; [by apply copy_ctor_unlocked|].
  split; [done|].
  split; [cbn; by rewrite lookup_insert_eq|].
  split; [|split; [done|split]].
  - intros b q Hb. cbn. rewrite lookup_insert_ne; [done|congruence].
  - intros cs w1. split; by apply exec_all_frame.
  - intros a c w1 b q q' Hq Hq' Hdiff.
    destruct (decide (a = b)) as [->|Hab].
    + split; [done|]. destruct c; try done.
      exfalso. apply Hdiff. by eapply empty_keeps_theQueue.
    + rewrite (exec_frame a b c w1 Hab) in Hq'. congruence.
Qed.

End Sequential.

Section Concurrent.

Variable T : Type.
Variable this : loc.
Implicit Types (w : World T) (cfg : config T) (t : thread T)
  (xs : list T) (c : call T).

Lemma invariant_init w (q0 : list T) clients :
  queues w !! this = Some (mkQueue false q0) ->
  invariant this q0 (init w clients).
Proof.
  intros H. exists false, q0. cbn. split; [done|]. split; [constructor|].
  split; [|by rewrite app_nil_r].
  intros j t' Hj. apply list_lookup_fmap_Some in Hj as (cs & -> & _). done.
Qed.

Lemma holder_insert (ts : list (thread T)) i t t' :
  ts !! i = Some t ->
  (forall j u, ts !! j = Some u -> j <> i -> at_pc u = Idle) ->
  <[i := t']> ts !! i = Some t' /\
  (forall j u, <[i := t']> ts !! j = Some u -> j <> i -> at_pc u = Idle).
Proof.
  intros Hi Hothers. split.
  - apply list_lookup_insert_eq. by eapply lookup_lt_Some.
  - intros j u Hj Hne. rewrite list_lookup_insert_ne in Hj by done. eauto.
Qed.

Lemma all_idle_insert (ts : list (thread T)) i t t' :
  ts !! i = Some t ->
  (forall j u, ts !! j = Some u -> j <> i -> at_pc u = Idle) ->
  at_pc t' = Idle ->
  forall j u, <[i := t']> ts !! j = Some u -> at_pc u = Idle.
Proof.
  intros Hi Hothers Hidle j u Hj.
  destruct (decide (j = i)) as [->|Hne].
  - rewrite list_lookup_insert_eq in Hj by (by eapply lookup_lt_Some).
    congruence.
  - rewrite list_lookup_insert_ne in Hj by done. eauto.
Qed.

Lemma removed_snoc cfg (e : completion T) :
  omap got (completed cfg ++ [e]) = removed cfg ++ option_list (got e).
Proof. unfold removed. rewrite omap_app. cbn. by destruct (got e). Qed.

Lemma delivered_put_queue c (r : outcome retval) a (q : ThreadsafeQueue T) w :
  delivered c r (put_queue a q w) = delivered c r w.
Proof. done. Qed.

(** A statement of a scheduled thread keeps the invariant. *)
Lemma invariant_step (q0 : list T) i cfg cfg' :
  invariant this q0 cfg ->
  sched_step this i cfg = Some cfg' ->
  invariant this q0 cfg'.
Proof.
  intros (mtx & xs & Hq & Hdone & Hinv) Hstep.
  unfold sched_step in Hstep.
  destruct (threads cfg !! i) as [t|] eqn:Ht; [|done].
  destruct (thread_step this t (world cfg)) as [[t' w']|] eqn:Hts; [|done].
  injection Hstep as <-.
  destruct cfg as [w ts ps fin]. cbn in *.
  destruct mtx.
  - destruct Hinv as (i0 & t0 & Ht0 & Hothers & Hpc & Heq).
    destruct (decide (i = i0)) as [->|Hne].
    2: { specialize (Hothers i t Ht Hne). exfalso.
         unfold thread_step in Hts. rewrite Hothers in Hts.
         destruct (todo t); [done|].
         unfold mutex_lock in Hts. by rewrite Hq in Hts. }
    assert (t0 = t) as -> by congruence.
    destruct (holder_insert ts i0 t t' Ht Hothers) as [Hi' Hothers'].
    destruct t as [cs p]. unfold thread_step, step_pushed, step_completed in *.
    cbn in *.
    destruct p as [|c|c|c res|c r]; cbn in Hpc.
    + done.
    + (* first statement of the body *)
      destruct c as [|value| |v];
        unfold theQueue_empty, theQueue_push in Hts; rewrite Hq in Hts;
        cbn in Hts.
      * simplify_eq. exists true, xs. rewrite !app_nil_r.
        split; [done|]. split; [done|]. by eexists i0, _.
      * destruct xs as [|x xs]; cbn in Hts; simplify_eq;
          exists true; eexists; rewrite !app_nil_r;
          (split; [done|]); (split; [done|]); by eexists i0, _.
      * destruct xs as [|x xs]; cbn in Hts; simplify_eq;
          exists true; eexists; rewrite !app_nil_r;
          (split; [done|]); (split; [done|]); by eexists i0, _.
      * simplify_eq. exists true, (xs ++ [v]). rewrite app_nil_r.
        split; [cbn; by rewrite lookup_insert_eq|]. split; [done|].
        eexists i0, _. split; [done|]. split; [done|]. split; [done|].
        cbn in *. by rewrite app_assoc, Heq, <- app_assoc.
    + (* the statement that copies the front element out *)
      destruct Hpc as [Hrem Hne]. destruct xs as [|x xs]; [done|].
      destruct c as [|value| |v]; try done;
        unfold bind, theQueue_front, assign, make_shared in Hts;
        rewrite Hq in Hts; cbn in Hts; simplify_eq;
        exists true, (x :: xs); rewrite !app_nil_r;
        (split; [done|]); (split; [done|]);
        eexists i0, _; (split; [done|]); (split; [done|]);
        (split; [|done]); (split; [done|]); exists x, xs;
        (split; [done|]); cbn; by rewrite lookup_insert_eq.
    + (* theQueue.pop() *)
      destruct Hpc as (Hrem & x & xs' & -> & Hx).
      unfold theQueue_pop in Hts. rewrite Hq in Hts. cbn in Hts.
      simplify_eq. exists true, xs'. rewrite !app_nil_r.
      split; [cbn; by rewrite lookup_insert_eq|]. split; [done|].
      eexists i0, _. split; [done|]. split; [done|]. cbn.
      rewrite delivered_put_queue, Hrem, Hx. cbn in *. by split.
    + (* the lock_guard is destroyed and the call ends *)
      unfold mutex_unlock in Hts. rewrite Hq in Hts. cbn in Hts.
      simplify_eq. exists false, xs. rewrite app_nil_r.
      split; [cbn; by rewrite lookup_insert_eq|].
      split; [apply Forall_app; split; [done|]; by repeat constructor|].
      split; [by eapply all_idle_insert|].
      unfold removed. cbn [pushed completed]. rewrite Heq.
      rewrite omap_app. cbn. destruct (delivered c r w); cbn;
        by rewrite <- ?app_assoc, ?app_nil_r.
  - destruct Hinv as [Hidle Heq].
    pose proof (Hidle i t Ht) as Hpc.
    destruct t as [cs p]. unfold thread_step, step_pushed, step_completed in *.
    cbn in *. subst p. destruct cs as [|c cs]; [done|].
    unfold mutex_lock in Hts. rewrite Hq in Hts. cbn in Hts. simplify_eq.
    exists true, xs. rewrite !app_nil_r.
    split; [cbn; by rewrite lookup_insert_eq|]. split; [done|].
    eexists i, _. split; [apply list_lookup_insert_eq; by eapply lookup_lt_Some|].
    split; [|done].
    intros j u Hj Hne. cbn in Hj.
    rewrite list_lookup_insert_ne in Hj by done. eauto.
Qed.

Lemma invariant_run (q0 : list T) sched :
  forall cfg cfg',
    invariant this q0 cfg ->
    run_schedule this sched cfg = Some cfg' ->
    invariant this q0 cfg'.
Proof.
  induction sched as [|i sched IH]; intros cfg cfg' Hinv Hrun; cbn in Hrun.
  - by simplify_eq.
  - destruct (sched_step this i cfg) as [cfg1|] eqn:E; [|done].
    eapply IH; [|done]. by eapply invariant_step.
Qed.

(** *** One thread alone

    Run by a single thread, the statements of a call add up to the
    member function of the sequential reading: same final store, same
    way of ending. *)

Lemma solo_agrees w c xs :
  queues w !! this = Some (mkQueue false xs) ->
  exists n cfg',
    run_schedule this (replicate n 0) (init w [[c]]) = Some cfg' /\
    world cfg' = snd (exec this c w) /\
    threads cfg' = [{| todo := []; at_pc := Idle |}] /\
    map how (completed cfg') = [fst (exec this c w)].
Proof.
  intros H.
  assert (exists r w', exec this c w = (r, w') /\
    exists n cfg',
      run_schedule this (replicate n 0) (init w [[c]]) = Some cfg' /\
      world cfg' = w' /\
      threads cfg' = [{| todo := []; at_pc := Idle |}] /\
      map how (completed cfg') = [r]) as (r & w' & E & n & cfg' & ?).
  { unfold exec, bind.
    destruct c as [|value| |v]; [|destruct xs as [|x xs]..|].
    - rewrite (empty_unlocked _ _ _ _ H). eexists _, _. split; [reflexivity|].
      exists 3. eexists. split; [|split; [|split]].
      + cbn. unfold sched_step, thread_step, mutex_lock, mutex_unlock,
          theQueue_empty. cbn. run_with H. done.
      + cbn. rewrite put_queue_twice. by apply put_queue_same.
      + done.
      + done.
    - rewrite (pop_ref_unlocked_nil _ _ _ _ H). eexists _, _. split; [reflexivity|].
      exists 3. eexists. split; [|split; [|split]].
      + cbn. unfold sched_step, thread_step, mutex_lock, mutex_unlock,
          theQueue_empty. cbn. run_with H. done.
      + cbn. rewrite put_queue_twice. by apply put_queue_same.
      + done.
      + done.
    - rewrite (pop_ref_unlocked_cons _ _ _ _ _ _ H).
      eexists _, _. split; [reflexivity|].
      exists 5. eexists. split; [|split; [|split]].
      + cbn. unfold sched_step, thread_step, mutex_lock, mutex_unlock,
          theQueue_empty, theQueue_front, theQueue_pop, assign, bind.
        cbn. run_with H. done.
      + cbn. unfold put_cell, put_queue. cbn. by rewrite !insert_insert_eq.
      + done.
      + done.
    - rewrite (pop_ptr_unlocked_nil _ _ _ H). eexists _, _. split; [reflexivity|].
      exists 3. eexists. split; [|split; [|split]].
      + cbn. unfold sched_step, thread_step, mutex_lock, mutex_unlock,
          theQueue_empty. cbn. run_with H. done.
      + cbn. rewrite put_queue_twice. by apply put_queue_same.
      + done.
      + done.
    - rewrite (pop_ptr_unlocked_cons _ _ _ _ _ H).
      eexists _, _. split; [reflexivity|].
      exists 5. eexists. split; [|split; [|split]].
      + cbn. unfold sched_step, thread_step, mutex_lock, mutex_unlock,
          theQueue_empty, theQueue_front, theQueue_pop, make_shared, bind.
        cbn. run_with H. done.
      + cbn. unfold put_cell, put_queue. cbn. by rewrite !insert_insert_eq.
      + done.
      + done.
    - rewrite (push_unlocked _ _ _ _ _ H). eexists _, _. split; [reflexivity|].
      exists 3. eexists. split; [|split; [|split]].
      + cbn. unfold sched_step, thread_step, mutex_lock, mutex_unlock,
          theQueue_push. cbn. run_with H. done.
      + cbn. by rewrite !put_queue_twice.
      + done.
      + done. }
  exists n, cfg'. by rewrite E.
Qed.

(** *** Reading the invariant *)

Lemma idle_pending w (l : list (thread T)) :
  Forall (fun u => at_pc u = Idle) l ->
  concat (map (fun u => pending w (at_pc u)) l) = [].
Proof.
  induction 1 as [|u l Hu _ IH]; [done|]. cbn. by rewrite Hu, IH.
Qed.

Lemma idle_holders (l : list (thread T)) :
  Forall (fun u => at_pc u = Idle) l ->
  filter (fun u => inside (at_pc u) = true) l = [].
Proof.
  induction 1 as [|u l Hu _ IH]; [done|].
  rewrite filter_cons, IH, Hu. by case_decide.
Qed.

Lemma all_idle_Forall (ts : list (thread T)) :
  (forall j u, ts !! j = Some u -> at_pc u = Idle) ->
  Forall (fun u => at_pc u = Idle) ts.
Proof. intros H. apply Forall_lookup. eauto. Qed.

Lemma holder_split (ts : list (thread T)) i t :
  ts !! i = Some t ->
  (forall j u, ts !! j = Some u -> j <> i -> at_pc u = Idle) ->
  exists l1 l2,
    ts = l1 ++ t :: l2 /\
    Forall (fun u => at_pc u = Idle) l1 /\
    Forall (fun u => at_pc u = Idle) l2.
Proof.
  intros Hi Hothers. exists (take i ts), (drop (S i) ts).
  split; [by rewrite take_drop_middle|]. split; apply Forall_lookup.
  - intros j u Hj. apply lookup_take_Some in Hj as [Hj Hlt].
    apply (Hothers j u Hj). lia.
  - intros j u Hj. rewrite lookup_drop in Hj.
    apply (Hothers _ u Hj). lia.
Qed.

Lemma removes_done_got (l : list (completion T)) :
  Forall completion_ok l ->
  forall k e,
    filter (fun e => is_remove (which e) && succeeded (how e) = true) l !! k
      = Some e ->
    exists x, got e = Some x /\ omap got l !! k = Some x.
Proof.
  induction 1 as [|e0 l He0 _ IH]; intros k e Hk; [done|].
  rewrite filter_cons in Hk. unfold completion_ok in He0. cbn.
  case_decide as Hp.
  - rewrite Hp in He0. destruct He0 as [x Hx]. rewrite Hx.
    destruct k as [|k]; cbn in *; [simplify_eq; eauto|]. by apply IH.
  - apply not_true_is_false in Hp. rewrite Hp in He0. rewrite He0.
    by apply IH.
Qed.

Lemma removes_done_length (l : list (completion T)) :
  Forall completion_ok l ->
  length (omap got l) =
  length (filter (fun e => is_remove (which e) && succeeded (how e) = true) l).
Proof.
  induction 1 as [|e0 l He0 _ IH]; [done|].
  rewrite filter_cons. unfold completion_ok in He0. cbn.
  case_decide as Hp.
  - rewrite Hp in He0. destruct He0 as [x Hx]. rewrite Hx. cbn.
    by rewrite IH.
  - apply not_true_is_false in Hp. rewrite Hp in He0. by rewrite He0.
Qed.

(** C4 (no loss, no duplication under interleaving).  Threads make any
    calls they like on one queue, interleaved statement by statement in
    any order the mutex allows.  In every state such a run reaches:
    - the elements the queue started with followed by the values pushed
      (in the order the pushes took effect) are exactly the values
      already delivered by removes, followed by the element a remove has
      taken out but not yet returned, followed by the present sequence:
      nothing is lost and nothing appears twice;
    - the k-th remove that returned delivered the k-th of those
      elements, so distinct removes consumed distinct elements, and each
      returned remove delivered exactly one value; when the values put in
      are pairwise distinct, so are the values delivered, and each of them
      was put in;
    - at most one thread is between its lock and its unlock;
    - a thread that has copied the front element out and has not yet
      executed [theQueue.pop()] still finds that very element at the
      front: reading the front and removing it act as one step. *)
Theorem no_loss_no_duplication w (q0 : list T) clients sched cfg :
  queues w !! this = Some (mkQueue false q0) ->
  run_schedule this sched (init w clients) = Some cfg ->
  q0 ++ pushed cfg = removed cfg ++ in_flight cfg ++ contents this cfg /\
  (forall k e,
     removes_done cfg !! k = Some e ->
     exists x, got e = Some x /\ (q0 ++ pushed cfg) !! k = Some x) /\
  length (removed cfg) = length (removes_done cfg) /\
  (NoDup (q0 ++ pushed cfg) ->
   NoDup (removed cfg) /\ removed cfg ⊆ q0 ++ pushed cfg) /\
  length (holders cfg) <= 1 /\
  (forall i t c res,
     threads cfg !! i = Some t ->
     at_pc t = AtPop c res ->
     exists x,
       q_front (contents this cfg) = Some x /\
       delivered c (Returned (result_of c res)) (world cfg) = Some x).
Proof.
  intros H Hrun.
  pose proof (invariant_run q0 sched _ _ (invariant_init w q0 clients H) Hrun)
    as (mtx & xs & Hq & Hdone & Hinv).
  unfold contents, in_flight, holders, removes_done. rewrite Hq. cbn.
  assert (q0 ++ pushed cfg
          = removed cfg
            ++ concat (map (fun u => pending (world cfg) (at_pc u)) (threads cfg))
            ++ xs) as Heq.
  { destruct mtx.
    - destruct Hinv as (i & t & Ht & Hothers & _ & Heq).
      destruct (holder_split _ _ _ Ht Hothers) as (l1 & l2 & -> & H1 & H2).
      rewrite map_app, concat_app. cbn.
      by rewrite (idle_pending _ _ H1), (idle_pending _ _ H2), app_nil_r.
    - destruct Hinv as [Hidle Heq].
      by rewrite (idle_pending _ _ (all_idle_Forall _ Hidle)). }
  split; [done|]. split; [|split; [|split; [|split]]].
  - intros k e Hk.
    destruct (removes_done_got _ Hdone k e Hk) as (x & Hx & Hkx).
    exists x. split; [done|]. rewrite Heq.
    by apply lookup_app_l_Some.
  - by apply removes_done_length.
  - rewrite Heq. intros Hnd. split.
    + by apply NoDup_app in Hnd as [? _].
    + intros x Hx. apply elem_of_app. by left.
  - destruct mtx.
    + destruct Hinv as (i & t & Ht & Hothers & _).
      destruct (holder_split _ _ _ Ht Hothers) as (l1 & l2 & -> & H1 & H2).
      rewrite filter_app, filter_cons, (idle_holders _ H1), (idle_holders _ H2).
      case_decide; cbn; lia.
    + destruct Hinv as [Hidle _].
      rewrite (idle_holders _ (all_idle_Forall _ Hidle)). cbn. lia.
  - intros i t c res Ht Hpc. destruct mtx.
    + destruct Hinv as (i0 & t0 & Ht0 & Hothers & Hok & _).
      destruct (decide (i = i0)) as [->|Hne].
      * assert (t0 = t) as -> by congruence. rewrite Hpc in Hok.
        destruct Hok as (_ & x & xs' & -> & Hx). by exists x.
      * specialize (Hothers i t Ht Hne). congruence.
    + destruct Hinv as [Hidle _]. specialize (Hidle i t Ht). congruence.
Qed.

End Concurrent.

(** * Further properties of the class and of the driver *)

Section MoreSequential.

Variable T : Type.
Implicit Types (w : World T) (this other value : loc) (xs ys : list T).

(** X1 (a new queue is empty).  In any store, the default constructor
    yields a queue object at an address where none lived; on it [empty]
    answers [true] and both overloads of [pop] throw [empty_queue]; none
    of the three calls changes the store. *)
Theorem fresh_queue_is_empty w value :
  exists this w',
    default_ctor w = (Returned this, w') /\
    queues w !! this = None /\
    empty this w' = (Returned true, w') /\
    pop_ref this value w' = (Threw empty_queue, w') /\
    pop_ptr this w' = (Threw empty_queue, w').
Proof.
  destruct (default_ctor_empty T w) as (this & w' & E & Hnew & Hq & _).
  exists this, w'. split; [done|]. split; [done|].
  split; [by rewrite (empty_unlocked _ _ _ _ Hq)|].
  split; [by apply pop_ref_unlocked_nil | by apply pop_ptr_unlocked_nil].
Qed.

Lemma perform_unlocked w this (o : op T) xs :
  queues w !! this = Some (mkQueue false xs) ->
  exists w',
    perform this o w = (Returned (fst (fifo_model xs [o])), w') /\
    queues w' !! this = Some (mkQueue false (snd (fifo_model xs [o]))).
Proof.
  intros H. destruct o as [v|k]; unfold perform, bind.
  - rewrite (push_unlocked _ _ _ _ _ H). eexists. split; [done|].
    cbn. by rewrite lookup_insert_eq.
  - destruct xs as [|x xs].
    + exists w. split; [|done]. unfold try_catch, remove, bind.
      destruct k as [value|].
      * by rewrite (pop_ref_unlocked_nil _ _ _ _ H).
      * by rewrite (pop_ptr_unlocked_nil _ _ _ H).
    + destruct (remove_unlocked_cons _ _ _ k _ _ H) as (w' & E & Hq).
      exists w'. split; [|done]. unfold try_catch. by rewrite E.
Qed.

Lemma fifo_model_cons (o : op T) os xs :
  fifo_model xs (o :: os) =
    (fst (fifo_model xs [o]) ++ fst (fifo_model (snd (fifo_model xs [o])) os),
     snd (fifo_model (snd (fifo_model xs [o])) os)).
Proof.
  destruct o as [v|k]; cbn.
  - by destruct (fifo_model (xs ++ [v]) os).
  - destruct xs as [|x xs]; cbn.
    + by destruct (fifo_model [] os).
    + by destruct (fifo_model xs os).
Qed.

(** X2 (the class is a first-in first-out queue).  A caller who pushes
    and removes in any order, through either overload of [pop], gets from
    a queue whose mutex is free exactly the answers of a plain list used
    first-in first-out: each remove delivers the oldest element not yet
    removed, or throws [empty_queue] when there is none; the sequence left
    at the end is the one the list model leaves. *)
Theorem class_refines_fifo_model this (os : list (op T)) :
  forall w xs,
    queues w !! this = Some (mkQueue false xs) ->
    exists w',
      perform_all this os w = (Returned (fst (fifo_model xs os)), w') /\
      queues w' !! this = Some (mkQueue false (snd (fifo_model xs os))).
Proof.
  unfold perform_all.
  induction os as [|o os IH]; intros w xs H.
  - exists w. by split.
  - destruct (perform_unlocked _ _ o _ H) as (w1 & E1 & Hq1).
    destruct (IH _ _ Hq1) as (w2 & E2 & Hq2).
    exists w2. rewrite fifo_model_cons. split; [|done].
    unfold bind in *. cbn. unfold bind. rewrite E1.
    destruct (for_each (perform this) os w1) as [[rss| | |] w3]; try done.
    unfold ret in E2 |- *. injection E2 as E2a E2b. subst w3.
    cbn [concat]. by rewrite E2a.
Qed.

(** X3 (handles of [pop()] never alias).  Removing the first elements of
    a queue by successive calls of [pop()] returns pointers to pairwise
    distinct objects, each at an address that held no object before; when
    the last call has returned, every one of them still holds the element
    it was returned for, and no object that existed before was changed. *)
Theorem pop_ptr_handles_distinct this xs :
  forall w ys,
    queues w !! this = Some (mkQueue false (xs ++ ys)) ->
    exists ls w',
      for_each (fun _ : unit => pop_ptr this) (replicate (length xs) ()) w
        = (Returned (map pointer ls), w') /\
      NoDup ls /\
      Forall (fun l => cells w !! l = None) ls /\
      Forall2 (fun l x => cells w' !! l = Some x) ls xs /\
      (forall l x, cells w !! l = Some x -> cells w' !! l = Some x) /\
      queues w' !! this = Some (mkQueue false ys).
Proof.
  induction xs as [|x xs IH]; intros w ys H.
  - exists [], w. cbn. repeat split; try done; constructor.
  - cbn in H.
    pose proof (pop_ptr_unlocked_cons _ _ _ _ _ H) as E.
    pose proof (fresh_cell_free _ w) as Hfresh.
    set (l0 := fresh (dom (cells w))) in *.
    set (w1 := put_cell l0 x (put_queue this (mkQueue false (xs ++ ys)) w)) in *.
    assert (queues w1 !! this = Some (mkQueue false (xs ++ ys))) as Hq1
      by (cbn; by rewrite lookup_insert_eq).
    assert (cells w1 !! l0 = Some x) as Hl0
      by (cbn; by rewrite lookup_insert_eq).
    destruct (IH w1 ys Hq1) as (ls & w' & Erest & Hnd & Hnew & Hheld & Hkeep & Hq').
    exists (l0 :: ls), w'. split; [|split; [|split; [|split; [|split]]]].
    + cbn. unfold bind at 1. rewrite E. unfold bind at 1. by rewrite Erest.
    + constructor; [|done]. intros Hin.
      rewrite Forall_forall in Hnew. specialize (Hnew _ Hin). congruence.
    + constructor; [done|]. eapply Forall_impl; [exact Hnew|].
      intros l Hl. cbn in Hl.
      destruct (decide (l0 = l)) as [<-|Hne]; [congruence|].
      by rewrite lookup_insert_ne in Hl.
    + constructor; [by apply Hkeep|done].
    + intros l v Hl. apply Hkeep. cbn.
      rewrite lookup_insert_ne; [done|]. congruence.
    + done.
Qed.

Lemma remove_frame a b (k : remove_kind) w :
  a <> b -> queues (snd (remove a k w)) !! b = queues w !! b.
Proof.
  intros Hne.
  unfold remove, deref, read, pop_ref, pop_ptr, lock_guard, finally, bind,
    mutex_lock, mutex_unlock, theQueue_empty, theQueue_front, theQueue_pop,
    assign, make_shared, throw, ret.
  destruct k as [value|];
    destruct (queues w !! a) as [[[] [|x l]]|] eqn:E; cbn; try done;
    repeat (rewrite lookup_insert_eq; cbn);
    by rewrite ?lookup_insert_ne.
Qed.

Lemma removes_frame a b (ks : list remove_kind) :
  a <> b -> forall w, queues (snd (for_each (remove a) ks w)) !! b = queues w !! b.
Proof.
  intros Hne. induction ks as [|k ks IH]; intros w; [done|].
  cbn. unfold bind at 1.
  pose proof (remove_frame a b k w Hne) as Hk.
  destruct (remove a k w) as [[r| | |] w1]; cbn in *; try done.
  unfold bind at 1. specialize (IH w1).
  destruct (for_each _ ks w1) as [[rs| | |] w2]; cbn in *; congruence.
Qed.

(** X4 (a copy holds the same elements in the same order).  After
    copy-constructing from a queue whose mutex is free, removing every
    element from the copy delivers the elements of the source in the
    source's order, and removing every element from the source afterwards
    delivers them once more. *)
Theorem copy_then_remove_all w other xs (ks1 ks2 : list remove_kind) :
  queues w !! other = Some (mkQueue false xs) ->
  length ks1 = length xs ->
  length ks2 = length xs ->
  exists w',
    (this <- copy_ctor other ;;
     from_copy <- for_each (remove this) ks1 ;;
     from_source <- for_each (remove other) ks2 ;;
     ret (from_copy, from_source)) w = (Returned (xs, xs), w').
Proof.
  intros H Hk1 Hk2.
  pose proof (fresh_queue_free _ w) as Hfresh.
  assert (fresh (dom (queues w)) <> other) as Hne
    by (intros E; rewrite E, H in Hfresh; done).
  unfold bind at 1. rewrite (copy_ctor_unlocked _ _ _ _ H).
  set (this := fresh (dom (queues w))) in *.
  set (w1 := put_queue this (mkQueue false xs) w).
  assert (queues w1 !! this = Some (mkQueue false (xs ++ []))) as Hq1
    by (cbn; by rewrite lookup_insert_eq, app_nil_r).
  destruct (removes_unlocked _ _ ks1 _ _ _ Hq1 Hk1) as (w2 & E2 & _).
  assert (queues w2 !! other = Some (mkQueue false (xs ++ []))) as Hq2.
  { pose proof (removes_frame this other ks1 Hne w1) as Hfr.
    rewrite E2 in Hfr. cbn in Hfr. rewrite Hfr, app_nil_r.
    by rewrite lookup_insert_ne. }
  destruct (removes_unlocked _ _ ks2 _ _ _ Hq2 Hk2) as (w3 & E3 & _).
  exists w3. unfold bind at 1. rewrite E2. unfold bind at 1. by rewrite E3.
Qed.

End MoreSequential.

Section MoreConcurrent.

Variable T : Type.
Variable this : loc.
Implicit Types (w : World T) (cfg : config T) (t : thread T)
  (xs : list T) (c : call T).

Lemma sched_step_inv i cfg cfg' :
  sched_step this i cfg = Some cfg' ->
  exists t t' w',
    threads cfg !! i = Some t /\
    thread_step this t (world cfg) = Some (t', w') /\
    cfg' = {| world := w';
              threads := <[i := t']> (threads cfg);
              pushed := pushed cfg ++ step_pushed t;
              completed := completed cfg ++ step_completed i t (world cfg) |}.
Proof.
  unfold sched_step. intros H.
  destruct (threads cfg !! i) as [t|] eqn:Ht; [|done].
  destruct (thread_step this t (world cfg)) as [[t' w']|] eqn:Hts; [|done].
  exists t, t', w'. by simplify_eq.
Qed.

(** Replacing one thread changes a sum over the threads by the difference
    of the two summands. *)
Lemma sum_insert (f : thread T -> nat) (ts : list (thread T)) i t t' :
  ts !! i = Some t ->
  sum_list_with f (<[i := t']> ts) + f t = sum_list_with f ts + f t'.
Proof.
  revert i. induction ts as [|u ts IH]; intros i Hi; [done|].
  destruct i as [|i]; simpl in *.
  - simplify_eq. lia.
  - specialize (IH i Hi). lia.
Qed.

Lemma concat_insert_perm {A : Type} (f : thread T -> list A)
    (ts : list (thread T)) i t t' (a : list A) :
  ts !! i = Some t ->
  f t ≡ₚ a ++ f t' ->
  concat (map f ts) ≡ₚ a ++ concat (map f (<[i := t']> ts)).
Proof.
  revert i. induction ts as [|u ts IH]; intros i Hi Hf; [done|].
  destruct i as [|i]; cbn in *.
  - simplify_eq. rewrite Hf. by rewrite <- app_assoc.
  - rewrite (IH i Hi Hf).
    rewrite !app_assoc. f_equiv; [apply Permutation_app_comm|done].
Qed.

(** *** Every run ends *)

Lemma thread_step_measure t w t' w' :
  thread_step this t w = Some (t', w') -> steps_left t' < steps_left t.
Proof.
  unfold thread_step, steps_left. destruct t as [cs p]. cbn.
  intros H. repeat case_match; simplify_eq; cbn; lia.
Qed.

Lemma sched_step_measure i cfg cfg' :
  sched_step this i cfg = Some cfg' ->
  total_steps_left cfg' < total_steps_left cfg.
Proof.
  intros H. apply sched_step_inv in H as (t & t' & w' & Ht & Hts & ->).
  unfold total_steps_left. cbn.
  pose proof (sum_insert steps_left _ _ _ t' Ht).
  pose proof (thread_step_measure _ _ _ _ Hts). lia.
Qed.

Lemma total_steps_init w (clients : list (list (call T))) :
  total_steps_left (init w clients) = 5 * length (concat clients).
Proof.
  unfold total_steps_left. cbn.
  induction clients as [|cs clients IH]; [done|].
  cbn. rewrite IH, length_app. unfold steps_left. cbn. lia.
Qed.

(** X6 (runs are finite).  However the scheduler interleaves the threads,
    a run from the start executes at most five statements per call the
    threads were given: the number of statements executed plus those still
    to come never exceeds five times the number of calls. *)
Theorem runs_are_bounded sched :
  forall w (clients : list (list (call T))) cfg,
    run_schedule this sched (init w clients) = Some cfg ->
    length sched + total_steps_left cfg <= 5 * length (concat clients).
Proof.
  intros w clients cfg. rewrite <- (total_steps_init w).
  generalize (init w clients). clear w clients.
  induction sched as [|i sched IH]; intros cfg0 Hrun; cbn in Hrun.
  - simplify_eq. cbn. lia.
  - destruct (sched_step this i cfg0) as [cfg1|] eqn:E; [|done].
    specialize (IH _ Hrun). apply sched_step_measure in E. cbn. lia.
Qed.

(** *** No deadlock *)

Lemma not_joined cfg :
  joined cfg = false ->
  exists i t, threads cfg !! i = Some t /\ finished t = false.
Proof.
  unfold joined. induction (threads cfg) as [|u ts IH]; [done|].
  cbn. destruct (finished u) eqn:E; cbn.
  - intros H. destruct (IH H) as (i & t & Hi & Ht). by exists (S i), t.
  - intros _. by exists 0, u.
Qed.

Lemma joined_finished cfg i t :
  joined cfg = true -> threads cfg !! i = Some t -> finished t = true.
Proof.
  unfold joined. revert i. induction (threads cfg) as [|u ts IH]; [done|].
  cbn. intros i [Hu Hts]%andb_prop Hi.
  destruct i as [|i]; cbn in Hi; [by simplify_eq|by eapply IH].
Qed.

Lemma finished_idle t : finished t = true -> todo t = [] /\ at_pc t = Idle.
Proof. unfold finished. destruct (todo t), (at_pc t); by intros. Qed.

(** In a state of the invariant either everybody is done or somebody can
    execute a statement. *)
Lemma invariant_progress (q0 : list T) cfg :
  invariant this q0 cfg ->
  joined cfg = true \/ exists i cfg', sched_step this i cfg = Some cfg'.
Proof.
  intros (mtx & xs & Hq & _ & Hinv).
  destruct mtx.
  - right. destruct Hinv as (i & t & Ht & _ & Hpc & _).
    exists i. unfold sched_step. rewrite Ht.
    assert (exists r, thread_step this t (world cfg) = Some r) as [[t' w'] ->];
      [|by eexists].
    destruct t as [cs p]. unfold thread_step. cbn in *.
    destruct p as [|c|c|c res|c r]; cbn in Hpc.
    + done.
    + destruct c; unfold theQueue_empty, theQueue_push; rewrite Hq; cbn;
        try destruct xs; cbn; by eexists.
    + destruct Hpc as [Hrem Hne].
      destruct c; try done; destruct xs; try done;
        unfold bind, theQueue_front, assign, make_shared; rewrite Hq; cbn;
        by eexists.
    + destruct Hpc as (_ & x & xs' & -> & _).
      unfold theQueue_pop. rewrite Hq. cbn. by eexists.
    + unfold mutex_unlock. rewrite Hq. cbn. by eexists.
  - destruct Hinv as [Hidle _].
    destruct (joined cfg) eqn:E; [by left|right].
    destruct (not_joined _ E) as (i & t & Ht & Hfin).
    exists i. unfold sched_step. rewrite Ht.
    pose proof (Hidle i t Ht) as Hpc.
    destruct t as [cs p]. unfold finished, thread_step in *. cbn in *.
    subst p. destruct cs as [|c cs]; [done|].
    unfold mutex_lock. rewrite Hq. cbn. by eexists.
Qed.

Lemma run_schedule_app (s1 s2 : list nat) cfg cfg1 :
  run_schedule this s1 cfg = Some cfg1 ->
  run_schedule this (s1 ++ s2) cfg = run_schedule this s2 cfg1.
Proof.
  revert cfg. induction s1 as [|i s1 IH]; intros cfg H; cbn in *.
  - by simplify_eq.
  - destruct (sched_step this i cfg); [by apply IH|done].
Qed.

Lemma invariant_completes (q0 : list T) (n : nat) :
  forall cfg,
    invariant this q0 cfg ->
    total_steps_left cfg <= n ->
    exists more cfg',
      run_schedule this more cfg = Some cfg' /\ joined cfg' = true.
Proof.
  induction n as [|n IH]; intros cfg Hinv Hn.
  - destruct (invariant_progress _ _ Hinv) as [Hj|(i & cfg1 & Hstep)].
    + by exists [], cfg.
    + apply sched_step_measure in Hstep. lia.
  - destruct (invariant_progress _ _ Hinv) as [Hj|(i & cfg1 & Hstep)].
    + by exists [], cfg.
    + destruct (IH cfg1) as (more & cfg' & Hrun & Hj).
      * by eapply invariant_step.
      * apply sched_step_measure in Hstep. lia.
      * exists (i :: more), cfg'. cbn. by rewrite Hstep.
Qed.

(** X5 (no deadlock; every [join] returns).  In every state a run
    reaches, either all threads have returned from their last call or some
    thread can execute its next statement; and the run can always be
    continued to a state in which all threads have returned from their
    last call. *)
Theorem every_run_can_finish w (q0 : list T) clients sched cfg :
  queues w !! this = Some (mkQueue false q0) ->
  run_schedule this sched (init w clients) = Some cfg ->
  (joined cfg = true \/ exists i cfg', sched_step this i cfg = Some cfg') /\
  exists more cfg',
    run_schedule this (sched ++ more) (init w clients) = Some cfg' /\
    joined cfg' = true.
Proof.
  intros H Hrun.
  pose proof (invariant_run _ this q0 sched _ _ (invariant_init _ this w q0 clients H) Hrun)
    as Hinv.
  split; [by eapply invariant_progress|].
  destruct (invariant_completes q0 _ cfg Hinv (le_n _)) as (more & cfg' & Hmore & Hj).
  exists more, cfg'. split; [|done].
  by rewrite (run_schedule_app _ _ _ _ Hrun).
Qed.

(** *** Threads that put in before they take out *)

Lemma sum_lookup_le (f : thread T -> nat) (ts : list (thread T)) i t :
  ts !! i = Some t -> f t <= sum_list_with f ts.
Proof.
  revert i. induction ts as [|u ts IH]; intros i Hi; [done|].
  destruct i as [|i]; simpl in *.
  - simplify_eq. lia.
  - specialize (IH i Hi). lia.
Qed.

(** The effect of one statement on the length of the sequence and on what
    the thread may yet take. *)
Lemma thread_step_demand mtx xs t w t' w' :
  queues w !! this = Some (mkQueue mtx xs) ->
  thread_step this t w = Some (t', w') ->
  demand t <= length xs ->
  match at_pc t with AtExit _ r => succeeded r = true | _ => True end ->
  exists mtx' xs',
    queues w' !! this = Some (mkQueue mtx' xs') /\
    demand t' + length xs <= demand t + length xs' /\
    match at_pc t' with AtExit _ r => succeeded r = true | _ => True end /\
    forall i, Forall (fun e => succeeded (how e) = true) (step_completed i t w).
Proof.
  intros Hq Hts Hdem Hok.
  destruct t as [cs p]. unfold thread_step, demand, step_completed in *.
  cbn in *.
  destruct p as [|c|c|c res|c r].
  - destruct cs as [|c cs]; [done|].
    unfold mutex_lock in Hts. rewrite Hq in Hts. cbn in Hts.
    destruct mtx; [done|]. simplify_eq.
    eexists _, _. split; [cbn; by rewrite lookup_insert_eq|]. cbn.
    split; [lia|]. split; [done|]. by constructor.
  - destruct c as [|value| |v];
      unfold theQueue_empty, theQueue_push in Hts; rewrite Hq in Hts;
      cbn in Hts.
    + simplify_eq. eexists _, _. split; [done|]. cbn.
      split; [lia|]. split; [done|]. by constructor.
    + destruct xs as [|x xs]; cbn in *; [lia|]. simplify_eq.
      eexists _, _. split; [done|]. cbn.
      split; [lia|]. split; [done|]. by constructor.
    + destruct xs as [|x xs]; cbn in *; [lia|]. simplify_eq.
      eexists _, _. split; [done|]. cbn.
      split; [lia|]. split; [done|]. by constructor.
    + simplify_eq. eexists _, _.
      split; [cbn; by rewrite lookup_insert_eq|]. cbn. rewrite length_app. cbn.
      split; [lia|]. split; [done|]. by constructor.
  - destruct c as [|value| |v]; try done;
      unfold bind, theQueue_front, assign, make_shared in Hts;
      rewrite Hq in Hts; cbn in Hts;
      destruct xs as [|x xs]; cbn in *; try done; simplify_eq;
      eexists _, _; (split; [done|]); cbn;
      (split; [lia|]); (split; [done|]); by constructor.
  - unfold theQueue_pop in Hts. rewrite Hq in Hts. cbn in Hts.
    destruct xs as [|x xs]; cbn in *; [done|]. simplify_eq.
    eexists _, _. split; [cbn; by rewrite lookup_insert_eq|]. cbn.
    split; [lia|]. split; [done|]. by constructor.
  - unfold mutex_unlock in Hts. rewrite Hq in Hts. cbn in Hts.
    destruct mtx; [|done]. simplify_eq.
    eexists _, _. split; [cbn; by rewrite lookup_insert_eq|]. cbn.
    split; [lia|]. split; [done|]. intros i. by repeat constructor.
Qed.

Lemma covered_step (q0 : list T) i cfg cfg' :
  invariant this q0 cfg ->
  covered this cfg ->
  sched_step this i cfg = Some cfg' ->
  covered this cfg'.
Proof.
  intros (mtx & xs & Hq & _) (Hdem & Hpcs & Hdone) Hstep.
  apply sched_step_inv in Hstep as (t & t' & w' & Ht & Hts & ->).
  unfold covered, contents, total_demand in *. rewrite Hq in Hdem. cbn in *.
  pose proof (sum_lookup_le demand _ _ _ Ht) as Hle.
  pose proof (sum_insert demand _ _ _ t' Ht) as Hsum.
  destruct (thread_step_demand _ _ _ _ _ _ Hq Hts) as (mtx' & xs' & Hq' & Hd & Hok & Hc).
  - lia.
  - rewrite Forall_lookup in Hpcs. by apply (Hpcs i t).
  - rewrite Hq'. cbn. split; [lia|]. split.
    + apply Forall_insert; done.
    + apply Forall_app. split; [done|apply Hc].
Qed.

Lemma demand_init (clients : list (list (call T))) :
  sum_list_with demand (map (fun cs => {| todo := cs; at_pc := Idle |}) clients)
  = sum_list_with need clients.
Proof.
  induction clients as [|cs clients IH]; [done|].
  simpl. by rewrite IH.
Qed.

Lemma covered_init w (q0 : list T) (clients : list (list (call T))) :
  queues w !! this = Some (mkQueue false q0) ->
  sum_list_with need clients <= length q0 ->
  covered this (init w clients).
Proof.
  intros Hq Hneed. unfold covered, contents, total_demand, init.
  cbn [world threads completed]. rewrite Hq, demand_init.
  split; [done|split].
  - apply Forall_forall. intros t Ht.
    apply list_elem_of_fmap in Ht as (cs & -> & _). done.
  - constructor.
Qed.

Lemma covered_run w (q0 : list T) clients sched cfg :
  queues w !! this = Some (mkQueue false q0) ->
  sum_list_with need clients <= length q0 ->
  run_schedule this sched (init w clients) = Some cfg ->
  Forall (fun e => succeeded (how e) = true) (completed cfg) /\
  total_demand cfg <= length (contents this cfg).
Proof.
  intros Hq Hneed Hrun.
  assert (covered this cfg) as (? & _ & ?); [|done].
  pose proof (invariant_init _ this w q0 clients Hq) as Hinv.
  pose proof (covered_init w q0 clients Hq Hneed) as Hcov.
  revert Hrun Hinv Hcov. generalize (init w clients). clear Hq Hneed.
  induction sched as [|i sched IH]; intros cfg0 Hrun Hinv Hcov; cbn in Hrun.
  - by simplify_eq.
  - destruct (sched_step this i cfg0) as [cfg1|] eqn:E; [|done].
    apply (IH cfg1); [done|by eapply invariant_step|by eapply covered_step].
Qed.

(** X7 (no empty error for threads that put in first).  Suppose the
    elements the queue starts with cover what the threads may take out
    beyond their own earlier pushes: for a thread that calls [push] before
    each [pop], as the workers of the driver do, nothing is needed.  Then
    in no interleaving does any call end by throwing [empty_queue], and in
    every state reached the sequence holds at least what the threads may
    still take beyond their own pushes. *)
Theorem covered_removes_never_throw w (q0 : list T) clients sched cfg :
  queues w !! this = Some (mkQueue false q0) ->
  sum_list_with need clients <= length q0 ->
  run_schedule this sched (init w clients) = Some cfg ->
  Forall (fun e => succeeded (how e) = true) (completed cfg) /\
  total_demand cfg <= length (contents this cfg).
Proof. apply covered_run. Qed.

(** *** Accounting for every call and every value *)

Lemma thread_step_pushes t w t' w' :
  thread_step this t w = Some (t', w') ->
  pushes_left t = step_pushed t ++ pushes_left t'.
Proof.
  unfold thread_step, pushes_left, step_pushed. destruct t as [cs p]. cbn.
  intros H. unfold push_values.
  repeat match type of H with
         | context [match ?x with _ => _ end] => destruct x eqn:?
         end; simplify_eq; done.
Qed.

Lemma thread_step_calls i t w t' w' :
  thread_step this t w = Some (t', w') ->
  calls_left t = map which (step_completed i t w) ++ calls_left t'.
Proof.
  unfold thread_step, calls_left, step_completed. destruct t as [cs p]. cbn.
  intros H.
  repeat match type of H with
         | context [match ?x with _ => _ end] => destruct x eqn:?
         end; simplify_eq; done.
Qed.

Lemma step_completed_who i t w :
  Forall (fun e => who e = i) (step_completed i t w).
Proof. unfold step_completed. destruct (at_pc t); by repeat constructor. Qed.

(** What has been pushed and what is yet to be pushed make up the values
    of all calls to [push]; the calls completed and those not completed
    make up all calls. *)
Lemma accounting_run sched :
  forall cfg0 cfg,
    run_schedule this sched cfg0 = Some cfg ->
    pushed cfg ++ concat (map pushes_left (threads cfg))
      ≡ₚ pushed cfg0 ++ concat (map pushes_left (threads cfg0)) /\
    map which (completed cfg) ++ concat (map calls_left (threads cfg))
      ≡ₚ map which (completed cfg0) ++ concat (map calls_left (threads cfg0)).
Proof.
  induction sched as [|i sched IH]; intros cfg0 cfg Hrun; cbn in Hrun.
  - by simplify_eq.
  - destruct (sched_step this i cfg0) as [cfg1|] eqn:E; [|done].
    destruct (IH _ _ Hrun) as [IHp IHc]. rewrite IHp, IHc. clear IH IHp IHc Hrun.
    apply sched_step_inv in E as (t & t' & w' & Ht & Hts & ->). cbn. split.
    + rewrite <- app_assoc. f_equiv. symmetry.
      apply concat_insert_perm with (t := t); [done|].
      by rewrite (thread_step_pushes _ _ _ _ Hts).
    + rewrite map_app, <- app_assoc. f_equiv. symmetry.
      apply concat_insert_perm with (t := t); [done|].
      by rewrite (thread_step_calls i _ _ _ _ Hts).
Qed.

Lemma joined_nothing_left cfg :
  joined cfg = true ->
  concat (map pushes_left (threads cfg)) = [] /\
  concat (map calls_left (threads cfg)) = [] /\
  forall i t, threads cfg !! i = Some t -> at_pc t = Idle.
Proof.
  intros Hj.
  assert (Forall (fun t => todo t = [] /\ at_pc t = Idle) (threads cfg)) as Hall.
  { apply Forall_lookup. intros i t Ht. apply finished_idle.
    by eapply joined_finished. }
  split; [|split].
  - induction Hall as [|[cs p] ts [Hcs Hp] _ IH]; [done|].
    cbn in *. subst. by rewrite IH.
  - induction Hall as [|[cs p] ts [Hcs Hp] _ IH]; [done|].
    cbn in *. subst. by rewrite IH.
  - intros i t Ht. rewrite Forall_lookup in Hall. by apply (Hall i t).
Qed.

Lemma accounting_when_joined w (q0 : list T) clients sched cfg :
  queues w !! this = Some (mkQueue false q0) ->
  run_schedule this sched (init w clients) = Some cfg ->
  joined cfg = true ->
  queues (world cfg) !! this = Some (mkQueue false (contents this cfg)) /\
  removed cfg ++ contents this cfg
    ≡ₚ q0 ++ concat (map push_values clients) /\
  map which (completed cfg) ≡ₚ concat clients.
Proof.
  intros Hq Hrun Hj.
  pose proof (invariant_run _ this q0 sched _ _ (invariant_init _ this w q0 clients Hq) Hrun)
    as (mtx & xs & Hq' & _ & Hinv).
  destruct (joined_nothing_left _ Hj) as (Hp & Hc & Hidle).
  destruct (accounting_run sched _ _ Hrun) as [Pp Pc].
  rewrite Hp, app_nil_r in Pp. rewrite Hc, app_nil_r in Pc.
  assert (concat (map pushes_left (threads (init w clients)))
          = concat (map push_values clients)) as Ep.
  { cbn. f_equal. rewrite map_map. done. }
  assert (concat (map calls_left (threads (init w clients)))
          = concat clients) as Ec.
  { cbn. f_equal. rewrite map_map. cbn. by rewrite map_id. }
  rewrite Ep in Pp. rewrite Ec in Pc. cbn in Pp, Pc.
  unfold contents. rewrite Hq'. cbn.
  destruct mtx.
  - destruct Hinv as (i & t & Ht & _ & Hpc & _).
    rewrite (Hidle i t Ht) in Hpc. done.
  - destruct Hinv as [_ Heq]. split; [done|]. split; [|done].
    by rewrite <- Heq, Pp.
Qed.

(** X8 (after the joins nothing is missing).  When every thread has
    returned from its last call, the mutex is free; the values the removes
    delivered together with the values left in the queue are, counted
    with multiplicity, the values the queue started with plus the values
    of all the threads' calls to [push]; and the calls completed are, up
    to order, exactly the calls the threads were given. *)
Theorem joined_accounting w (q0 : list T) clients sched cfg :
  queues w !! this = Some (mkQueue false q0) ->
  run_schedule this sched (init w clients) = Some cfg ->
  joined cfg = true ->
  queues (world cfg) !! this = Some (mkQueue false (contents this cfg)) /\
  removed cfg ++ contents this cfg
    ≡ₚ q0 ++ concat (map push_values clients) /\
  map which (completed cfg) ≡ₚ concat clients.
Proof. apply accounting_when_joined. Qed.


(** *** Testing [empty()] before [pop()] *)

(** X10 (the answer of [empty] is a snapshot).  On a queue with one
    element a caller alone who finds [empty()] false has its next [pop()]
    return; with a second thread this fails: there is an interleaving in
    which a thread finds [empty()] false, the other thread removes the
    element, and the first thread's [pop()] throws [empty_queue]. *)
Theorem empty_then_pop_can_throw w (x : T) :
  queues w !! this = Some (mkQueue false [x]) ->
  (exists w',
     (b <- empty this ;; r <- try_catch (pop_ptr this) ;; ret (b, succeeded r)) w
       = (Returned (false, true), w')) /\
  exists sched cfg,
    run_schedule this sched (init w [[Empty; PopPtr]; [PopPtr]]) = Some cfg /\
    joined cfg = true /\
    map (fun e => (who e, which e, how e)) (completed cfg)
      = [(0, Empty, Returned (VBool false));
         (1, PopPtr, Returned (VPtr (pointer (fresh (dom (cells w))))));
         (0, PopPtr, Threw empty_queue)].
Proof.
  intros H. split.
  - unfold bind, try_catch. rewrite (empty_unlocked _ _ _ _ H).
    rewrite (pop_ptr_unlocked_cons _ _ _ _ _ H). by eexists.
  - exists [0; 0; 0; 1; 1; 1; 1; 1; 0; 0; 0]. eexists. split; [|split].
    + cbn. unfold sched_step, thread_step, mutex_lock, mutex_unlock,
        theQueue_empty, theQueue_front, theQueue_pop, make_shared, bind.
      cbn. run_with H. done.
    + done.
    + done.
Qed.

(** *** The loop that empties the queue *)

Lemma drain_unlocked readValue xs :
  forall fuel w (out : list (line T)),
    queues w !! this = Some (mkQueue false xs) ->
    length xs < fuel ->
    exists w',
      drain fuel this readValue w out =
        Done w' (out ++ map ReadValue xs
                     ++ [Text "Exception caught"; Text "queue empty exception"]) /\
      queues w' !! this = Some (mkQueue false []).
Proof.
  induction xs as [|x xs IH]; intros fuel w out H Hfuel;
    (destruct fuel as [|fuel]; [cbn in Hfuel; lia|]); cbn [drain].
  - unfold bind. rewrite (pop_ref_unlocked_nil _ _ _ _ H). by exists w.
  - destruct (remove_unlocked_cons _ _ _ (IntoRef readValue) _ _ H)
      as (w1 & E & Hq1).
    unfold remove in E. rewrite E.
    destruct (IH fuel w1 (out ++ [ReadValue x]) Hq1) as (w' & Ed & Hq');
      [cbn in Hfuel; lia|].
    exists w'. split; [|done]. rewrite Ed. cbn. by rewrite <- app_assoc.
Qed.

(** X11 (the loop of [main] that empties the queue).  Started on a queue
    whose mutex is free, with more fuel than the queue has elements, the
    loop ends by catching [empty_queue]: it has printed every element of
    the queue, in the queue's order, then the two lines of the handler,
    the second being what [what()] returns; the queue is left empty with
    its mutex free. *)
Theorem drain_prints_contents readValue xs :
  forall fuel w (out : list (line T)),
    queues w !! this = Some (mkQueue false xs) ->
    length xs < fuel ->
    exists w',
      drain fuel this readValue w out =
        Done w' (out ++ map ReadValue xs
                     ++ [Text "Exception caught"; Text "queue empty exception"]) /\
      queues w' !! this = Some (mkQueue false []).
Proof. apply drain_unlocked. Qed.

Lemma successful_removes_count (l : list (completion T)) :
  Forall (fun e => succeeded (how e) = true) l ->
  length (filter (fun e => is_remove (which e) && succeeded (how e) = true) l)
  = length (filter (fun c => is_remove c = true) (map which l)).
Proof.
  induction 1 as [|e l He _ IH]; [done|].
  cbn [map]. rewrite !filter_cons, He, andb_true_r.
  destruct (is_remove (which e)); repeat case_decide; try done; cbn; by rewrite IH.
Qed.

(** When no call threw, the removes that returned are as many as the
    calls to [pop] the threads were given. *)
Lemma joined_removes_count w (q0 : list T) clients sched cfg :
  queues w !! this = Some (mkQueue false q0) ->
  run_schedule this sched (init w clients) = Some cfg ->
  joined cfg = true ->
  Forall (fun e => succeeded (how e) = true) (completed cfg) ->
  length (removed cfg)
  = length (filter (fun c => is_remove c = true) (concat clients)).
Proof.
  intros Hq Hrun Hj Hok.
  pose proof (invariant_run _ this q0 sched _ _ (invariant_init _ this w q0 clients Hq) Hrun)
    as (mtx & xs & _ & Hdone & _).
  destruct (accounting_when_joined w q0 clients sched cfg Hq Hrun Hj) as (_ & _ & Hcalls).
  unfold removed. rewrite (removes_done_length _ _ Hdone).
  rewrite (successful_removes_count _ Hok). by rewrite Hcalls.
Qed.

End MoreConcurrent.

Section Serial.

Variable T : Type.
Variable this : loc.
Implicit Types (w : World T) (cfg : config T) (t : thread T)
  (xs : list T) (c : call T).

(** A thread that has just taken the mutex ends its call, left alone,
    exactly as the member function does. *)
Lemma lock_then_finish w xs cs c :
  queues w !! this = Some (mkQueue false xs) ->
  finish_call 4 this {| todo := cs; at_pc := AtBody c |}
    (put_queue this (mkQueue true xs) w) = Some (exec this c w).
Proof.
  intros H. unfold exec, bind.
  destruct c as [|value| |v]; [|destruct xs as [|x xs]..|].
  - rewrite (empty_unlocked _ _ _ _ H). cbn.
    unfold thread_step, mutex_unlock, theQueue_empty. cbn.
    repeat (rewrite lookup_insert_eq; cbn).
    unfold with_m, with_theQueue, ret; cbn.
    rewrite put_queue_twice. by rewrite (put_queue_same _ _ _ _ H).
  - rewrite (pop_ref_unlocked_nil _ _ _ _ H). cbn.
    unfold thread_step, mutex_unlock, theQueue_empty. cbn.
    repeat (rewrite lookup_insert_eq; cbn).
    unfold with_m, with_theQueue, ret; cbn.
    rewrite put_queue_twice. by rewrite (put_queue_same _ _ _ _ H).
  - rewrite (pop_ref_unlocked_cons _ _ _ _ _ _ H). cbn.
    unfold thread_step, mutex_unlock, theQueue_empty, theQueue_front,
      theQueue_pop, assign, bind. cbn.
    repeat (rewrite lookup_insert_eq; cbn).
    unfold with_m, with_theQueue, ret; cbn.
    unfold put_cell, put_queue. cbn. by rewrite !insert_insert_eq.
  - rewrite (pop_ptr_unlocked_nil _ _ _ H). cbn.
    unfold thread_step, mutex_unlock, theQueue_empty. cbn.
    repeat (rewrite lookup_insert_eq; cbn).
    unfold with_m, with_theQueue, ret; cbn.
    rewrite put_queue_twice. by rewrite (put_queue_same _ _ _ _ H).
  - rewrite (pop_ptr_unlocked_cons _ _ _ _ _ H). cbn.
    unfold thread_step, mutex_unlock, theQueue_empty, theQueue_front,
      theQueue_pop, make_shared, bind. cbn.
    repeat (rewrite lookup_insert_eq; cbn).
    unfold with_m, with_theQueue, ret; cbn.
    unfold put_cell, put_queue. cbn. by rewrite !insert_insert_eq.
  - rewrite (push_unlocked _ _ _ _ _ H). cbn.
    unfold thread_step, mutex_unlock, theQueue_push. cbn.
    repeat (rewrite lookup_insert_eq; cbn).
    unfold with_m, with_theQueue, ret; cbn.
    by rewrite !put_queue_twice.
Qed.

Lemma exec_all_snoc (cs : list (call T)) c :
  forall w0 rs w r w',
    exec_all this cs w0 = (Returned rs, w) ->
    try_catch (exec this c) w = (Returned r, w') ->
    exec_all this (cs ++ [c]) w0 = (Returned (rs ++ [r]), w').
Proof.
  unfold exec_all.
  induction cs as [|a cs IH]; intros w0 rs w r w' H Hc.
  - cbn in H. unfold ret in H. simplify_eq. cbn. unfold bind. by rewrite Hc.
  - cbn in H |- *. unfold bind at 1 in H. unfold bind at 1.
    destruct (try_catch (exec this a) w0) as [[r0| | |] w1]; try done.
    unfold bind at 1 in H. unfold bind at 1.
    destruct (for_each _ cs w1) as [[rs1| | |] w2] eqn:E; try done.
    unfold ret in H. simplify_eq.
    by rewrite (IH _ _ _ _ _ E Hc).
Qed.

Lemma finish_call_inside fuel t w r w1 :
  finish_call fuel this t w = Some (r, w1) ->
  exists c, current (at_pc t) = Some c.
Proof.
  destruct fuel as [|fuel]; [done|]. cbn.
  destruct (at_pc t); [done|by eexists..].
Qed.

Lemma thread_step_keeps_call t w t' w' c :
  thread_step this t w = Some (t', w') ->
  current (at_pc t) = Some c ->
  (exists r, at_pc t = AtExit c r /\ at_pc t' = Idle) \/
  current (at_pc t') = Some c.
Proof.
  unfold thread_step. destruct t as [cs p]. cbn. intros H Hc.
  destruct p as [|c1|c1|c1 res|c1 r]; cbn in Hc; simplify_eq;
    repeat match type of H with
           | context [match ?x with _ => _ end] => destruct x eqn:?
           end; simplify_eq; cbn; eauto.
Qed.

Lemma serial_step (q0 : list T) w0 i cfg cfg' :
  invariant this q0 cfg ->
  serial this w0 cfg ->
  sched_step this i cfg = Some cfg' ->
  serial this w0 cfg'.
Proof.
  intros (mtx & xs & Hq & _ & Hinv) (wc & ys & Hexec & Hqc & Hidle & Hin) Hstep.
  apply sched_step_inv in Hstep as (t & t' & w' & Ht & Hts & ->).
  destruct cfg as [w ts ps fin]. cbn in *.
  destruct mtx.
  - destruct Hinv as (i0 & t0 & Ht0 & Hothers & Hpc & _).
    destruct (decide (i = i0)) as [->|Hne].
    2: { specialize (Hothers i t Ht Hne). exfalso.
         unfold thread_step in Hts. rewrite Hothers in Hts.
         destruct (todo t); [done|].
         unfold mutex_lock in Hts. by rewrite Hq in Hts. }
    assert (t0 = t) as -> by congruence.
    destruct (holder_insert _ ts i0 t t' Ht Hothers) as [Hi' Hothers'].
    assert (exists c, current (at_pc t) = Some c) as [c Hc]
      by (destruct (at_pc t); [done|by eexists..]).
    destruct (Hin i0 t c Ht Hc) as [fuel Hfin].
    destruct fuel as [|fuel]; [done|]. cbn in Hfin. rewrite Hts in Hfin.
    destruct (thread_step_keeps_call _ _ _ _ _ Hts Hc) as [(r & Hp & Hp')|Hc'].
    + (* the call ends *)
      unfold step_completed. rewrite Hp in Hfin |- *. simplify_eq.
      destruct (exec_unlocked T wc this c ys Hqc) as (r' & w'' & ys' & Etc & Hq'' & _).
      unfold try_catch in Etc. rewrite <- Hfin in Etc.
      exists w', ys'. cbn [completed world threads].
      split; [|split; [|split]].
      * rewrite !map_app. cbn [map which how].
        apply exec_all_snoc with (w := wc); [exact Hexec|].
        unfold try_catch. rewrite <- Hfin. by destruct r.
      * by destruct r; simplify_eq.
      * done.
      * intros j u c' Hj Hcu. destruct (decide (j = i0)) as [->|Hne].
        -- assert (u = t') as -> by congruence. rewrite Hp' in Hcu. done.
        -- rewrite (Hothers' j u Hj Hne) in Hcu. done.
    + (* the call goes on *)
      assert (step_completed i0 t w = []) as ->.
      { unfold step_completed. destruct (at_pc t) eqn:Hp; try done.
        exfalso. cbn in Hfin. simplify_eq.
        unfold thread_step in Hts. rewrite Hp in Hts.
        destruct (mutex_unlock this w) as [[] ?]; by simplify_eq. }
      assert (finish_call fuel this t' w' = Some (exec this c wc)) as Hfin'.
      { destruct (at_pc t) eqn:Hp; try done. cbn in Hc'.
        unfold thread_step in Hts. rewrite Hp in Hts.
        destruct (mutex_unlock this w) as [[] ?]; by simplify_eq. }
      rewrite app_nil_r. exists wc, ys. cbn [completed world threads].
      split; [done|]. split; [done|]. split.
      * intros Hall. specialize (Hall i0 t' Hi'). rewrite Hall in Hc'. done.
      * intros j u c' Hj Hcu. destruct (decide (j = i0)) as [->|Hne].
        -- assert (u = t') as -> by congruence.
           assert (c' = c) as -> by congruence. by exists fuel.
        -- rewrite (Hothers' j u Hj Hne) in Hcu. done.
  - destruct Hinv as [Hall _].
    pose proof (Hidle Hall) as <-.
    pose proof (Hall i t Ht) as Hp.
    destruct t as [cs p]. cbn in Hp. subst p.
    unfold thread_step, step_completed in *. cbn in *.
    destruct cs as [|c cs]; [done|].
    unfold mutex_lock in Hts. rewrite Hq in Hts. cbn in Hts. simplify_eq.
    rewrite !app_nil_r. eexists w, _. cbn [completed world threads].
    split; [done|]. split; [done|]. split.
    + intros Hall'.
      assert (<[i := {| todo := cs; at_pc := AtBody c |}]> ts !! i
              = Some {| todo := cs; at_pc := AtBody c |}) as Hi
        by (apply list_lookup_insert_eq; by eapply lookup_lt_Some).
      by specialize (Hall' _ _ Hi).
    + intros j u c' Hj Hcu. destruct (decide (j = i)) as [->|Hne].
      * rewrite list_lookup_insert_eq in Hj by (by eapply lookup_lt_Some).
        simplify_eq. cbn in Hcu. simplify_eq.
        exists 4. by apply lock_then_finish.
      * rewrite list_lookup_insert_ne in Hj by done.
        rewrite (Hall j u Hj) in Hcu. done.
Qed.

Lemma serial_init w (q0 : list T) (clients : list (list (call T))) :
  queues w !! this = Some (mkQueue false q0) ->
  serial this w (init w clients).
Proof.
  intros Hq. exists w, q0. cbn. split; [done|]. split; [done|]. split; [done|].
  intros i t c Hi Hc.
  apply list_lookup_fmap_Some in Hi as (cs & -> & _). done.
Qed.

Lemma serial_run (q0 : list T) w0 sched :
  forall cfg cfg',
    invariant this q0 cfg ->
    serial this w0 cfg ->
    run_schedule this sched cfg = Some cfg' ->
    serial this w0 cfg'.
Proof.
  induction sched as [|i sched IH]; intros cfg cfg' Hinv Hser Hrun; cbn in Hrun.
  - by simplify_eq.
  - destruct (sched_step this i cfg) as [cfg1|] eqn:E; [|done].
    apply (IH cfg1); [by eapply invariant_step|by eapply serial_step|done].
Qed.

(** X13 (every run is a serial run).  Take any state of any interleaved
    run in which no thread is inside a call, for instance after the joins.
    The calls completed so far, made in their order of completion by one
    caller alone on the store the run started from, end exactly as they
    ended in the run (same return values, same exceptions) and leave
    exactly the store the run is in: the lock makes every call take effect
    at one instant. *)
Theorem runs_are_serial w (q0 : list T) clients sched cfg :
  queues w !! this = Some (mkQueue false q0) ->
  run_schedule this sched (init w clients) = Some cfg ->
  holders cfg = [] ->
  exec_all this (map which (completed cfg)) w
    = (Returned (map how (completed cfg)), world cfg).
Proof.
  intros Hq Hrun Hnone.
  pose proof (serial_run q0 w sched _ _ (invariant_init _ this w q0 clients Hq)
                (serial_init w q0 clients Hq) Hrun)
    as (wc & ys & Hexec & _ & Hidle & _).
  rewrite Hexec. rewrite Hidle; [done|].
  intros i t Ht. unfold holders in Hnone.
  assert (t ∉ filter (fun u => inside (at_pc u) = true) (threads cfg)) as Hnot
    by (rewrite Hnone; apply not_elem_of_nil).
  rewrite list_elem_of_filter in Hnot.
  destruct (at_pc t); try done; exfalso; apply Hnot;
    (split; [done|by eapply list_elem_of_lookup_2]).
Qed.

End Serial.

(** ** The driver *)

Lemma driver_needs_nothing : sum_list_with need driver_threads = 0.
Proof. vm_compute. reflexivity. Qed.

Lemma driver_pushes :
  concat (map push_values driver_threads) = [1; 2; 3; 4; 5; 6; 7; 8; 9; 10]%Z.
Proof. vm_compute. reflexivity. Qed.

Lemma driver_pops :
  length (filter (fun c : call Z => is_remove c = true) (concat driver_threads)) = 7.
Proof. vm_compute. reflexivity. Qed.

(** X12 ([main] of the driver).  Whatever the order in which the ten
    threads run, once they are all joined: no thread's [pop()] has thrown
    (so no thread ended the program through an uncaught exception); the
    loop of [main], given fuel for four rounds or more, prints exactly
    three values and then the two lines of the handler, leaving the queue
    empty; and the values the threads received together with the three
    values printed are 1, ..., 10, each exactly once. *)
Theorem driver_delivers_each_value_once
    (w : World Z) sched fuel readValue myStack w1 cfg :
  default_ctor w = (Returned myStack, w1) ->
  run_schedule myStack sched (init w1 driver_threads) = Some cfg ->
  joined cfg = true ->
  4 <= fuel ->
  Forall (fun e => succeeded (how e) = true) (completed cfg) /\
  exists w' drained,
    main sched fuel readValue w =
      Done w' (map ReadValue drained
               ++ [Text "Exception caught"; Text "queue empty exception"]) /\
    length drained = 3 /\
    removed cfg ++ drained ≡ₚ [1; 2; 3; 4; 5; 6; 7; 8; 9; 10]%Z /\
    queues w' !! myStack = Some (mkQueue false []).
Proof.
  intros Hctor Hrun Hj Hfuel.
  assert (queues w1 !! myStack = Some (mkQueue false [])) as Hq.
  { unfold default_ctor in Hctor. simplify_eq. cbn. by rewrite lookup_insert_eq. }
  assert (sum_list_with need driver_threads <= length (@nil Z)) as Hneed
    by (rewrite driver_needs_nothing; done).
  destruct (covered_run Z myStack w1 [] driver_threads sched cfg Hq Hneed Hrun)
    as [Hok _].
  destruct (accounting_when_joined Z myStack w1 [] driver_threads sched cfg Hq Hrun Hj)
    as (Hq' & Hperm & _).
  pose proof (joined_removes_count Z myStack w1 [] driver_threads sched cfg
                Hq Hrun Hj Hok) as Hcount.
  rewrite driver_pops in Hcount. rewrite driver_pushes in Hperm. cbn in Hperm.
  assert (length (contents myStack cfg) = 3) as Hlen.
  { apply Permutation_length in Hperm. rewrite length_app in Hperm.
    cbn in Hperm. lia. }
  destruct (drain_unlocked Z myStack readValue _ fuel (world cfg) [] Hq')
    as (w' & Hdrain & Hq''); [lia|].
  split; [done|]. exists w', (contents myStack cfg).
  split; [|done].
  unfold main. by rewrite Hctor, Hrun, Hj, Hdrain.
Qed.

(** * The statements at work on queues of integers *)

Lemma fifo_order_witness :
  queues (one_queue []) !! 1%positive = Some (mkQueue false []) /\
  length [AsPtr; IntoRef 9%positive; AsPtr] = length [1%Z; 2%Z; 3%Z] /\
  exists w',
    (for_each (push 1%positive) [1%Z; 2%Z; 3%Z] ;;
     for_each (remove 1%positive) [AsPtr; IntoRef 9%positive; AsPtr])
      (one_queue []) = (Returned [1%Z; 2%Z; 3%Z], w') /\
    queues w' !! 1%positive = Some (mkQueue false []).
Proof.
  split; [vm_compute; reflexivity|]. split; [reflexivity|].
  apply (fifo_order Z (one_queue []) 1%positive [1%Z; 2%Z; 3%Z]
           [AsPtr; IntoRef 9%positive; AsPtr]);
    [vm_compute; reflexivity | reflexivity].
Defined.

Lemma remove_throws_iff_empty_witness :
  queues (one_queue [7%Z]) !! 1%positive = Some (mkQueue false [7%Z]) /\
  (fst (pop_ref 1%positive 9%positive (one_queue [7%Z])) = Threw empty_queue
     <-> [7%Z] = []) /\
  (fst (pop_ptr 1%positive (one_queue [7%Z])) = Threw empty_queue
     <-> [7%Z] = []) /\
  ([7%Z] = [] ->
   snd (pop_ref 1%positive 9%positive (one_queue [7%Z])) = one_queue [7%Z] /\
   snd (pop_ptr 1%positive (one_queue [7%Z])) = one_queue [7%Z]).
Proof.
  split; [vm_compute; reflexivity|].
  apply (remove_throws_iff_empty Z (one_queue [7%Z]) 1%positive 9%positive [7%Z]).
  vm_compute; reflexivity.
Defined.

Lemma pop_ref_success_witness :
  queues (one_queue [4%Z; 5%Z]) !! 1%positive = Some (mkQueue false [4%Z; 5%Z]) /\
  pop_ref 1%positive 9%positive (one_queue [4%Z; 5%Z]) =
    (Returned (),
     {| queues := <[1%positive := mkQueue false [5%Z]]> (queues (one_queue [4%Z; 5%Z]));
        cells := <[9%positive := 4%Z]> (cells (one_queue [4%Z; 5%Z])) |}).
Proof.
  split; [vm_compute; reflexivity|].
  apply (pop_ref_success Z (one_queue [4%Z; 5%Z]) 1%positive 9%positive 4%Z [5%Z]).
  vm_compute; reflexivity.
Defined.

Lemma no_loss_no_duplication_witness :
  queues (one_queue []) !! 1%positive = Some (mkQueue false []) /\
  run_schedule 1%positive interleaving (init (one_queue []) workers)
    = Some stopped /\
  [] ++ pushed stopped
    = removed stopped ++ in_flight stopped ++ contents 1%positive stopped /\
  (forall k e,
     removes_done stopped !! k = Some e ->
     exists x, got e = Some x /\ ([] ++ pushed stopped) !! k = Some x) /\
  length (removed stopped) = length (removes_done stopped) /\
  (NoDup ([] ++ pushed stopped) ->
   NoDup (removed stopped) /\ removed stopped ⊆ [] ++ pushed stopped) /\
  length (holders stopped) <= 1 /\
  (forall i t c res,
     threads stopped !! i = Some t ->
     at_pc t = AtPop c res ->
     exists x,
       q_front (contents 1%positive stopped) = Some x /\
       delivered c (Returned (result_of c res)) (world stopped) = Some x).
Proof.
  split; [vm_compute; reflexivity|]. split; [vm_compute; reflexivity|].
  apply (no_loss_no_duplication Z 1%positive (one_queue []) [] workers
           interleaving stopped);
    vm_compute; reflexivity.
Defined.

Lemma copy_ctor_independent_witness :
  queues (one_queue [4%Z; 5%Z]) !! 1%positive = Some (mkQueue false [4%Z; 5%Z]) /\
  exists this w',
    copy_ctor 1%positive (one_queue [4%Z; 5%Z]) = (Returned this, w') /\
    queues (one_queue [4%Z; 5%Z]) !! this = None /\
    queues w' !! this = Some (mkQueue false [4%Z; 5%Z]) /\
    (forall b q,
       queues (one_queue [4%Z; 5%Z]) !! b = Some q -> queues w' !! b = Some q) /\
    cells w' = cells (one_queue [4%Z; 5%Z]) /\
    (forall (cs : list (call Z)) (w1 : World Z),
       queues (snd (exec_all this cs w1)) !! 1%positive = queues w1 !! 1%positive /\
       queues (snd (exec_all 1%positive cs w1)) !! this = queues w1 !! this) /\
    (forall a (c : call Z) (w1 : World Z) b (q q' : ThreadsafeQueue Z),
       queues w1 !! b = Some q ->
       queues (snd (exec a c w1)) !! b = Some q' ->
       theQueue q' <> theQueue q ->
       a = b /\ is_push c || is_remove c = true).
Proof.
  split; [vm_compute; reflexivity|].
  apply (copy_ctor_independent Z (one_queue [4%Z; 5%Z]) 1%positive [4%Z; 5%Z]).
  vm_compute; reflexivity.
Defined.

Lemma empty_pure_idempotent_witness :
  queues (one_queue [4%Z]) !! 1%positive = Some (mkQueue false [4%Z]) /\
  exists b : bool,
    (b = true <-> length [4%Z] = 0) /\
    empty 1%positive (one_queue [4%Z]) = (Returned b, one_queue [4%Z]) /\
    for_each (fun _ : unit => empty 1%positive) (replicate 3 ()) (one_queue [4%Z])
      = (Returned (replicate 3 b), one_queue [4%Z]).
Proof.
  split; [vm_compute; reflexivity|].
  apply (empty_pure_idempotent Z (one_queue [4%Z]) 1%positive [4%Z] 3).
  vm_compute; reflexivity.
Defined.

Lemma push_appends_witness :
  queues (one_queue [4%Z]) !! 1%positive = Some (mkQueue false [4%Z]) /\
  push 1%positive 5%Z (one_queue [4%Z]) =
    (Returned (),
     {| queues :=
          <[1%positive := mkQueue false ([4%Z] ++ [5%Z])]> (queues (one_queue [4%Z]));
        cells := cells (one_queue [4%Z]) |}) /\
  (forall w0 e, fst (push 1%positive 5%Z w0) <> Threw e).
Proof.
  split; [vm_compute; reflexivity|].
  apply (push_appends Z (one_queue [4%Z]) 1%positive [4%Z] 5%Z).
  vm_compute; reflexivity.
Defined.

Lemma failed_pop_ref_keeps_value_witness :
  fst (pop_ref 1%positive 9%positive (put_cell 9%positive 8%Z (one_queue [])))
    = Threw empty_queue /\
  cells (snd (pop_ref 1%positive 9%positive (put_cell 9%positive 8%Z (one_queue []))))
    !! 9%positive
    = cells (put_cell 9%positive 8%Z (one_queue [])) !! 9%positive /\
  cells (snd (pop_ref 1%positive 9%positive (put_cell 9%positive 8%Z (one_queue []))))
    = cells (put_cell 9%positive 8%Z (one_queue [])).
Proof.
  split; [vm_compute; reflexivity|].
  apply (failed_pop_ref_keeps_value Z (put_cell 9%positive 8%Z (one_queue []))
           1%positive 9%positive).
  vm_compute; reflexivity.
Defined.

Lemma pop_ptr_success_witness :
  queues (one_queue [4%Z; 5%Z]) !! 1%positive = Some (mkQueue false [4%Z; 5%Z]) /\
  exists l w',
    pop_ptr 1%positive (one_queue [4%Z; 5%Z]) = (Returned (pointer l), w') /\
    pointer l <> nullptr /\
    cells (one_queue [4%Z; 5%Z]) !! l = None /\
    cells w' !! l = Some 4%Z /\
    deref (pointer l) w' = (Returned 4%Z, w') /\
    queues w' !! 1%positive = Some (mkQueue false [5%Z]) /\
    (forall cs,
       let held :=
         put_queue 1%positive (mkQueue true [4%Z; 5%Z]) (one_queue [4%Z; 5%Z]) in
       let copied := put_cell l 4%Z held in
       thread_step 1%positive (mkThread cs (AtFront PopPtr)) held
         = Some (mkThread cs (AtPop PopPtr (pointer l)), copied) /\
       queues copied !! 1%positive = Some (mkQueue true [4%Z; 5%Z]) /\
       thread_step 1%positive (mkThread cs (AtPop PopPtr (pointer l))) copied
         = Some (mkThread cs (AtExit PopPtr (Returned (VPtr (pointer l)))),
                 put_queue 1%positive (mkQueue true [5%Z]) copied)).
Proof.
  split; [vm_compute; reflexivity|].
  apply (pop_ptr_success Z (one_queue [4%Z; 5%Z]) 1%positive 4%Z [5%Z]).
  vm_compute; reflexivity.
Defined.

Lemma length_delta_witness :
  queues (one_queue [4%Z]) !! 1%positive = Some (mkQueue false [4%Z]) /\
  (forall c : call Z,
     exists r w' ys,
       try_catch (exec 1%positive c) (one_queue [4%Z]) = (Returned r, w') /\
       queues w' !! 1%positive = Some (mkQueue false ys) /\
       match c with
       | Push _ => length ys = S (length [4%Z])
       | PopRef _ | PopPtr =>
           if succeeded r then S (length ys) = length [4%Z]
           else length ys = length [4%Z]
       | Empty => length ys = length [4%Z]
       end) /\
  (forall cs : list (call Z),
     exists rs w' ys,
       exec_all 1%positive cs (one_queue [4%Z]) = (Returned rs, w') /\
       length rs = length cs /\
       queues w' !! 1%positive = Some (mkQueue false ys) /\
       length ys + count_removed cs rs = length [4%Z] + count_pushes cs).
Proof.
  split; [vm_compute; reflexivity|].
  apply (length_delta Z (one_queue [4%Z]) 1%positive [4%Z]).
  vm_compute; reflexivity.
Defined.

Lemma class_refines_fifo_model_witness :
  queues (one_queue [4%Z]) !! 1%positive = Some (mkQueue false [4%Z]) /\
  exists w',
    perform_all 1%positive
      [DoRemove AsPtr; DoPush 5%Z; DoRemove (IntoRef 9%positive);
       DoRemove AsPtr; DoPush 6%Z] (one_queue [4%Z])
      = (Returned
           (fst (fifo_model [4%Z]
                   [DoRemove AsPtr; DoPush 5%Z; DoRemove (IntoRef 9%positive);
                    DoRemove AsPtr; DoPush 6%Z])), w') /\
    queues w' !! 1%positive =
      Some (mkQueue false
              (snd (fifo_model [4%Z]
                      [DoRemove AsPtr; DoPush 5%Z; DoRemove (IntoRef 9%positive);
                       DoRemove AsPtr; DoPush 6%Z]))).
Proof.
  split; [vm_compute; reflexivity|].
  apply (class_refines_fifo_model Z 1%positive
           [DoRemove AsPtr; DoPush 5%Z; DoRemove (IntoRef 9%positive);
            DoRemove AsPtr; DoPush 6%Z] (one_queue [4%Z]) [4%Z]).
  vm_compute; reflexivity.
Defined.

Lemma pop_ptr_handles_distinct_witness :
  queues (one_queue [4%Z; 5%Z; 6%Z]) !! 1%positive
    = Some (mkQueue false ([4%Z; 5%Z] ++ [6%Z])) /\
  exists ls w',
    for_each (fun _ : unit => pop_ptr 1%positive)
      (replicate (length [4%Z; 5%Z]) ()) (one_queue [4%Z; 5%Z; 6%Z])
      = (Returned (map pointer ls), w') /\
    NoDup ls /\
    Forall (fun l => cells (one_queue [4%Z; 5%Z; 6%Z]) !! l = None) ls /\
    Forall2 (fun l x => cells w' !! l = Some x) ls [4%Z; 5%Z] /\
    (forall l x,
       cells (one_queue [4%Z; 5%Z; 6%Z]) !! l = Some x -> cells w' !! l = Some x) /\
    queues w' !! 1%positive = Some (mkQueue false [6%Z]).
Proof.
  split; [vm_compute; reflexivity|].
  apply (pop_ptr_handles_distinct Z 1%positive [4%Z; 5%Z]
           (one_queue [4%Z; 5%Z; 6%Z]) [6%Z]).
  vm_compute; reflexivity.
Defined.

Lemma copy_then_remove_all_witness :
  queues (one_queue [4%Z; 5%Z]) !! 1%positive = Some (mkQueue false [4%Z; 5%Z]) /\
  length [AsPtr; IntoRef 9%positive] = length [4%Z; 5%Z] /\
  length [IntoRef 9%positive; AsPtr] = length [4%Z; 5%Z] /\
  exists w',
    (this <- copy_ctor 1%positive ;;
     from_copy <- for_each (remove this) [AsPtr; IntoRef 9%positive] ;;
     from_source <- for_each (remove 1%positive) [IntoRef 9%positive; AsPtr] ;;
     ret (from_copy, from_source)) (one_queue [4%Z; 5%Z])
      = (Returned ([4%Z; 5%Z], [4%Z; 5%Z]), w').
Proof.
  split; [vm_compute; reflexivity|]. split; [reflexivity|]. split; [reflexivity|].
  apply (copy_then_remove_all Z (one_queue [4%Z; 5%Z]) 1%positive [4%Z; 5%Z]
           [AsPtr; IntoRef 9%positive] [IntoRef 9%positive; AsPtr]);
    [vm_compute; reflexivity | reflexivity | reflexivity].
Defined.

Lemma every_run_can_finish_witness :
  queues (one_queue []) !! 1%positive = Some (mkQueue false []) /\
  run_schedule 1%positive interleaving (init (one_queue []) workers)
    = Some stopped /\
  (joined stopped = true \/
   exists i cfg', sched_step 1%positive i stopped = Some cfg') /\
  exists more cfg',
    run_schedule 1%positive (interleaving ++ more) (init (one_queue []) workers)
      = Some cfg' /\
    joined cfg' = true.
Proof.
  split; [vm_compute; reflexivity|]. split; [vm_compute; reflexivity|].
  apply (every_run_can_finish Z 1%positive (one_queue []) [] workers
           interleaving stopped);
    vm_compute; reflexivity.
Defined.

Lemma runs_are_bounded_witness :
  run_schedule 1%positive interleaving (init (one_queue []) workers)
    = Some stopped /\
  length interleaving + total_steps_left stopped <= 5 * length (concat workers).
Proof.
  split; [vm_compute; reflexivity|].
  apply (runs_are_bounded Z 1%positive interleaving (one_queue []) workers stopped).
  vm_compute; reflexivity.
Defined.

Lemma covered_removes_never_throw_witness :
  queues (one_queue []) !! 1%positive = Some (mkQueue false []) /\
  sum_list_with need workers <= length (@nil Z) /\
  run_schedule 1%positive interleaving (init (one_queue []) workers)
    = Some stopped /\
  Forall (fun e => succeeded (how e) = true) (completed stopped) /\
  total_demand stopped <= length (contents 1%positive stopped).
Proof.
  split; [vm_compute; reflexivity|]. split; [vm_compute; lia|].
  split; [vm_compute; reflexivity|].
  apply (covered_removes_never_throw Z 1%positive (one_queue []) [] workers
           interleaving stopped);
    [vm_compute; reflexivity | vm_compute; lia | vm_compute; reflexivity].
Defined.

Lemma joined_accounting_witness :
  queues (one_queue []) !! 1%positive = Some (mkQueue false []) /\
  run_schedule 1%positive driver_run (init (one_queue []) driver_threads)
    = Some driver_joined /\
  joined driver_joined = true /\
  queues (world driver_joined) !! 1%positive
    = Some (mkQueue false (contents 1%positive driver_joined)) /\
  removed driver_joined ++ contents 1%positive driver_joined
    ≡ₚ [] ++ concat (map push_values driver_threads) /\
  map which (completed driver_joined) ≡ₚ concat driver_threads.
Proof.
  split; [vm_compute; reflexivity|]. split; [vm_compute; reflexivity|].
  split; [vm_compute; reflexivity|].
  apply (joined_accounting Z 1%positive (one_queue []) [] driver_threads
           driver_run driver_joined);
    vm_compute; reflexivity.
Defined.


Lemma empty_then_pop_can_throw_witness :
  queues (one_queue [7%Z]) !! 1%positive = Some (mkQueue false [7%Z]) /\
  (exists w',
     (b <- empty 1%positive ;; r <- try_catch (pop_ptr 1%positive) ;;
      ret (b, succeeded r)) (one_queue [7%Z])
       = (Returned (false, true), w')) /\
  exists sched cfg,
    run_schedule 1%positive sched
      (init (one_queue [7%Z]) [[Empty; PopPtr]; [PopPtr]]) = Some cfg /\
    joined cfg = true /\
    map (fun e => (who e, which e, how e)) (completed cfg)
      = [(0, Empty, Returned (VBool false));
         (1, PopPtr,
          Returned (VPtr (pointer (fresh (dom (cells (one_queue [7%Z])))))));
         (0, PopPtr, Threw empty_queue)].
Proof.
  split; [vm_compute; reflexivity|].
  apply (empty_then_pop_can_throw Z 1%positive (one_queue [7%Z]) 7%Z).
  vm_compute; reflexivity.
Defined.

Lemma drain_prints_contents_witness :
  queues (one_queue [4%Z; 5%Z]) !! 1%positive = Some (mkQueue false [4%Z; 5%Z]) /\
  length [4%Z; 5%Z] < 3 /\
  exists w',
    drain 3 1%positive 9%positive (one_queue [4%Z; 5%Z]) [] =
      Done w' ([] ++ map ReadValue [4%Z; 5%Z]
                  ++ [Text "Exception caught"; Text "queue empty exception"]) /\
    queues w' !! 1%positive = Some (mkQueue false []).
Proof.
  split; [vm_compute; reflexivity|]. split; [cbn; lia|].
  apply (drain_prints_contents Z 1%positive 9%positive [4%Z; 5%Z] 3
           (one_queue [4%Z; 5%Z]) []);
    [vm_compute; reflexivity | cbn; lia].
Defined.

Lemma driver_delivers_each_value_once_witness :
  default_ctor empty_store = (Returned 1%positive, one_queue []) /\
  run_schedule 1%positive driver_run (init (one_queue []) driver_threads)
    = Some driver_joined /\
  joined driver_joined = true /\
  4 <= 4 /\
  Forall (fun e => succeeded (how e) = true) (completed driver_joined) /\
  exists w' drained,
    main driver_run 4 9%positive empty_store =
      Done w' (map ReadValue drained
               ++ [Text "Exception caught"; Text "queue empty exception"]) /\
    length drained = 3 /\
    removed driver_joined ++ drained ≡ₚ [1; 2; 3; 4; 5; 6; 7; 8; 9; 10]%Z /\
    queues w' !! 1%positive = Some (mkQueue false []).
Proof.
  split; [vm_compute; reflexivity|]. split; [vm_compute; reflexivity|].
  split; [vm_compute; reflexivity|]. split; [lia|].
  apply (driver_delivers_each_value_once empty_store driver_run 4 9%positive
           1%positive (one_queue []) driver_joined);
    [vm_compute; reflexivity | vm_compute; reflexivity
    | vm_compute; reflexivity | lia].
Defined.

Lemma runs_are_serial_witness :
  queues (one_queue []) !! 1%positive = Some (mkQueue false []) /\
  run_schedule 1%positive driver_run (init (one_queue []) driver_threads)
    = Some driver_joined /\
  holders driver_joined = [] /\
  exec_all 1%positive (map which (completed driver_joined)) (one_queue [])
    = (Returned (map how (completed driver_joined)), world driver_joined).
Proof.
  split; [vm_compute; reflexivity|]. split; [vm_compute; reflexivity|].
  split; [vm_compute; reflexivity|].
  apply (runs_are_serial Z 1%positive (one_queue []) [] driver_threads
           driver_run driver_joined);
    vm_compute; reflexivity.
Defined.
